(** * Place Detective: region tiling, fetch orchestration, normalisation,
      fuzzy matching and findings analysis

    A shallow embedding of [place_detective.py].

    Modelling conventions.
    - A bounding box is the four numbers its string "south,west,north,east"
      parses to.  Python computes on them in binary64; here they are exact
      rationals ([Q]), so that every statement about areas is a statement
      of exact arithmetic ([==] is equality of fractions).
    - A Python [dict] is an insertion-ordered association list with
      distinct keys ([Dict.t]); [items()] is the list itself.
    - A Python [str] is a [string]; [lower()] folds the ASCII letters.
    - [KeyError] is the [Raise] outcome of the [result] monad.
    - The Overpass service is a scripted network: the outcome of the n-th
      request is the n-th entry of the script.
    - [fuzzywuzzy]'s three ratios are the fields of the [Fuzz] class. *)

From Stdlib Require Import QArith Qfield Lqa Sorted.
From Stdlib Require Import Ascii String DecimalString DecimalPos DecimalZ.
From stdpp Require Import base list strings gmap.

Local Open Scope string_scope.
Local Open Scope list_scope.
Local Open Scope Z_scope.

#[local] Set Warnings "-clear-no-such-hyp".

(** ** Region geometry *)

Module Geometry.

Record bbox := Bbox { south : Q; west : Q; north : Q; east : Q }.

(** calculate_bbox_area *)
Definition calculate_bbox_area (b : bbox) : Q :=
  ((north b - south b) * (east b - west b))%Q.

(** range(n) for a Python int n *)
Definition range (n : Z) : list Z := seqZ 0 n.

(** The guard of the [while] loop of split_bbox_into_tiles. *)
Definition grid_continue (area : Q) (max_tiles grid_size : Z) : bool :=
  (grid_size * grid_size <? max_tiles)
  && negb (Qle_bool (area / inject_Z (grid_size * grid_size)) 1).

(** [while grid_size * grid_size < max_tiles and area / (...) > 1.0:
       grid_size += 1] *)
Fixpoint grid_loop (fuel : nat) (area : Q) (max_tiles grid_size : Z) : Z :=
  match fuel with
  | O => grid_size
  | S fuel' =>
      if grid_continue area max_tiles grid_size
      then grid_loop fuel' area max_tiles (grid_size + 1)
      else grid_size
  end.

(** The loop started at 2.  It runs fewer than [max_tiles] times, since a
    grid size it steps over has its square below [max_tiles]
    ([grid_loop_exit] shows the fuel is never what stops it). *)
Definition compute_grid_size (area : Q) (max_tiles : Z) : Z :=
  grid_loop (Z.to_nat max_tiles) area max_tiles 2.

(** The body of the two nested [for] loops. *)
Definition tile_at (b : bbox) (lat_step lon_step : Q) (i j : Z) : bbox :=
  {| south := south b + inject_Z i * lat_step;
     west := west b + inject_Z j * lon_step;
     north := south b + inject_Z (i + 1) * lat_step;
     east := west b + inject_Z (j + 1) * lon_step |}%Q.

(** split_bbox_into_tiles *)
Definition split_bbox_into_tiles (b : bbox) (max_tiles : Z) : list bbox :=
  let area := ((north b - south b) * (east b - west b))%Q in
  if Qle_bool area 1 then [b]
  else
    let lat_range := (north b - south b)%Q in
    let lon_range := (east b - west b)%Q in
    let grid_size := compute_grid_size area max_tiles in
    let lat_step := (lat_range / inject_Z grid_size)%Q in
    let lon_step := (lon_range / inject_Z grid_size)%Q in
    i ← range grid_size;
    j ← range grid_size;
    [tile_at b lat_step lon_step i j].

Definition DEFAULT_MAX_TILES : Z := 16.

(** Sum of the areas of a tile plan. *)
Definition total_area (tiles : list bbox) : Q :=
  foldr (fun t acc => (calculate_bbox_area t + acc)%Q) 0%Q tiles.

End Geometry.

Import Geometry.

(** ** Python values: errors, dictionaries, strings *)

Inductive exn := KeyError (key : string).

Inductive result (A : Type) :=
  | Ok (a : A)
  | Raise (e : exn).
Arguments Ok {A} a.
Arguments Raise {A} e.

#[global] Instance result_ret : MRet result := fun A a => Ok a.
#[global] Instance result_bind : MBind result := fun A B f m =>
  match m with
  | Ok a => f a
  | Raise e => Raise e
  end.

(** [d[key]] on an optional field of a record that stands for a dict. *)
Definition getitem {A} (key : string) (field : option A) : result A :=
  match field with
  | Some a => Ok a
  | None => Raise (KeyError key)
  end.

Module Dict.

(** Entries in insertion order. *)
Definition t (V : Type) : Type := list (string * V).

Definition items {V} (d : t V) : list (string * V) := d.
Definition keys {V} (d : t V) : list string := d.*1.

(** [d.get(key, None)] *)
Fixpoint get {V} (key : string) (d : t V) : option V :=
  match d with
  | [] => None
  | (k, v) :: d' => if decide (k = key) then Some v else get key d'
  end.

(** [key in d] *)
Definition contains {V} (key : string) (d : t V) : bool :=
  bool_decide (is_Some (get key d)).

(** [d[key]] *)
Definition item {V} (key : string) (d : t V) : result V :=
  getitem key (get key d).

(** [d[key] = v]: a known key keeps its position, a new one goes last. *)
Fixpoint set {V} (key : string) (v : V) (d : t V) : t V :=
  match d with
  | [] => [(key, v)]
  | (k, v') :: d' =>
      if decide (k = key) then (k, v) :: d' else (k, v') :: set key v d'
  end.

End Dict.

Definition len (s : string) : Z := Z.of_nat (String.length s).

(** [str(n)] for an int *)
Definition str_int (n : Z) : string := NilZero.string_of_int (Z.to_int n).

Definition lower_ascii (c : ascii) : ascii :=
  let n := nat_of_ascii c in
  if ((65 <=? n) && (n <=? 90))%nat then ascii_of_nat (n + 32) else c.

(** [s.lower()] *)
Fixpoint lower (s : string) : string :=
  match s with
  | EmptyString => EmptyString
  | String c s' => String (lower_ascii c) (lower s')
  end.

(** [sep.join(parts)] *)
Definition join (sep : string) (parts : list string) : string :=
  String.concat sep parts.

(** ** Raw records and place records *)

(** The nested [center] object of a way or relation. *)
Record center := { c_lat : option Q; c_lon : option Q }.

(** An element of an Overpass response.  [type] and [id] are its identity
    and always there; the other keys may be missing. *)
Record element := {
  e_type : string;
  e_id : Z;
  e_lat : option Q;
  e_lon : option Q;
  e_center : option center;
  e_tags : option (Dict.t string)
}.

Record place := {
  p_name : string;
  p_type : string;
  p_id : Z;
  p_lat : option Q;
  p_lon : option Q;
  p_category : string;
  p_subcategory : string;
  p_address : option string;
  p_phone : option string;
  p_website : option string;
  p_opening_hours : option string;
  p_brand : option string;
  p_cuisine : option string;
  p_tags : Dict.t string
}.

(** ** Record normaliser *)

Module Normalizer.

Definition CATEGORY_KEYS : list string :=
  ["amenity"; "shop"; "leisure"; "tourism"; "healthcare"; "education"].

(** "Get coordinates" *)
Definition coordinates (element : element) : result (option Q * option Q) :=
  if decide (e_type element = "node") then
    lat ← getitem "lat" (e_lat element);
    lon ← getitem "lon" (e_lon element);
    mret (Some lat, Some lon)
  else
    match e_center element with
    | Some c =>
        lat ← getitem "lat" (c_lat c);
        lon ← getitem "lon" (c_lon c);
        mret (Some lat, Some lon)
    | None => mret (None, None)
    end.

(** "Determine place category":
    [for key, value in tags.items(): if key in [...]: ...; break] *)
Fixpoint category_loop (items : list (string * string))
    (place_category place_subcategory : string) : string * string :=
  match items with
  | [] => (place_category, place_subcategory)
  | (key, value) :: rest =>
      if bool_decide (key ∈ CATEGORY_KEYS) then (key, value)
      else category_loop rest place_category place_subcategory
  end.

Definition determine_category (tags : Dict.t string) : string * string :=
  category_loop (Dict.items tags) "unknown" "unknown".

(** [if key in tags: address_parts.append(tags[key])] *)
Definition append_if_present (key : string) (tags : Dict.t string)
    (address_parts : list string) : list string :=
  match Dict.get key tags with
  | Some v => address_parts ++ [v]
  | None => address_parts
  end.

Definition address_of (tags : Dict.t string) : option string :=
  let address_parts := [] in
  let address_parts := append_if_present "addr:housenumber" tags address_parts in
  let address_parts := append_if_present "addr:street" tags address_parts in
  let address_parts := append_if_present "addr:district" tags address_parts in
  let address_parts := append_if_present "addr:city" tags address_parts in
  match address_parts with
  | [] => None
  | _ => Some (join ", " address_parts)
  end.

(** The body of the [for element in elements] loop: [None] when the
    element is skipped, the new entry of [places] otherwise. *)
Definition extract_element (element : element) : result (option place) :=
  match e_tags element with
  | None => mret None
  | Some tags =>
      match Dict.get "name" tags with
      | None => mret None
      | Some name =>
          '(lat, lon) ← coordinates element;
          let '(place_category, place_subcategory) := determine_category tags in
          mret (Some {|
            p_name := name;
            p_type := e_type element;
            p_id := e_id element;
            p_lat := lat;
            p_lon := lon;
            p_category := place_category;
            p_subcategory := place_subcategory;
            p_address := address_of tags;
            p_phone := Dict.get "phone" tags;
            p_website := Dict.get "website" tags;
            p_opening_hours := Dict.get "opening_hours" tags;
            p_brand := Dict.get "brand" tags;
            p_cuisine := Dict.get "cuisine" tags;
            p_tags := tags |})
      end
  end.

(** extract_place_info *)
Fixpoint extract_place_info (elements : list element) : result (list place) :=
  match elements with
  | [] => mret []
  | element :: rest =>
      p ← extract_element element;
      places ← extract_place_info rest;
      mret (option_list p ++ places)
  end.

(** Category resolution as the specification words it: the first key of
    the priority list that the attribute map has. *)
Fixpoint category_by_priority (priority : list string) (tags : Dict.t string)
    : string * string :=
  match priority with
  | [] => ("unknown", "unknown")
  | key :: rest =>
      match Dict.get key tags with
      | Some value => (key, value)
      | None => category_by_priority rest tags
      end
  end.

End Normalizer.

(** ** Fetch orchestrator *)

Module Fetch.

(** The JSON object of a response: the keys the program reads or writes. *)
Record response := {
  r_elements : option (list element);
  r_generator : option string
}.

(** Truth value of a response object: a dict is false when empty. *)
Definition truthy (r : response) : bool :=
  bool_decide (is_Some (r_elements r) ∨ is_Some (r_generator r)).

(** A query payload.  The Overpass QL text is not modelled: a payload is
    the arguments generate_overpass_query or generate_broad_overpass_query
    renders it from. *)
Inductive query :=
  | SearchQuery (search_term : string) (bbox : bbox)
      (place_types : option (list string)) (exact_match : bool) (timeout : Z)
  | BroadQuery (bbox : bbox) (place_types : option (list string)) (timeout : Z).

Definition generate_overpass_query (search_term : string) (bbox : bbox)
    (place_types : option (list string)) (exact_match : bool) (timeout : Z)
    : query :=
  SearchQuery search_term bbox place_types exact_match timeout.

Definition generate_broad_overpass_query (bbox : bbox)
    (place_types : option (list string)) (timeout : Z) : query :=
  BroadQuery bbox place_types timeout.

(** What the orchestrator prints. *)
Inductive message :=
  | SingleQuery
  | SplitInto (tiles : nat)
  | TileFound (i : nat) (elements : nat)
  | TileFailed (i : nat)
  | Completed (successful_tiles tiles : nat)
  | RemovedDuplicates (n : nat).

(** The world outside: the outcomes the service will give, in request
    order ([None] for a transport or decoding failure), the requests sent
    so far, the pacing delays taken and the console. *)
Record net := {
  script : list (option response);
  sent : list query;
  sleeps : nat;
  console : list message
}.

Definition io (A : Type) : Type := net → A * net.

Definition print (m : message) : io () := fun w =>
  ((), {| script := script w; sent := sent w; sleeps := sleeps w;
          console := console w ++ [m] |}).

(** [time.sleep(0.5)] *)
Definition sleep : io () := fun w =>
  ((), {| script := script w; sent := sent w; sleeps := S (sleeps w);
          console := console w |}).

(** query_overpass: one request; both [except] branches return None. *)
Definition query_overpass (q : query) : io (option response) := fun w =>
  (default None (head (script w)),
   {| script := tail (script w); sent := sent w ++ [q]; sleeps := sleeps w;
      console := console w |}).

Definition plan (search_term : string) (place_types : option (list string))
    (exact_match : bool) (timeout : Z) (broad_search : bool) (bbox : bbox)
    : query :=
  if broad_search then generate_broad_overpass_query bbox place_types timeout
  else generate_overpass_query search_term bbox place_types exact_match timeout.

(** [f"{element['type']}{element['id']}"] *)
Definition element_id (element : element) : string :=
  e_type element ++ str_int (e_id element).

(** "Deduplicate results (same OSM ID)" *)
Fixpoint dedup_loop (all_elements : list element) (seen_ids : gset string)
    (unique_elements : list element) : list element :=
  match all_elements with
  | [] => unique_elements
  | element :: rest =>
      let element_id := element_id element in
      if decide (element_id ∈ seen_ids) then
        dedup_loop rest seen_ids unique_elements
      else
        dedup_loop rest ({[element_id]} ∪ seen_ids) (unique_elements ++ [element])
  end.

Definition deduplicate (all_elements : list element) : list element :=
  dedup_loop all_elements ∅ [].

(** "Execute queries on each tile": the loop over [enumerate(tiles, 1)]. *)
Fixpoint tile_loop (mk : bbox → query) (i : nat) (tiles : list bbox)
    (all_elements : list element) (successful_tiles : nat)
    : io (list element * nat) := fun w =>
  match tiles with
  | [] => ((all_elements, successful_tiles), w)
  | tile_bbox :: rest =>
      let '(result, w) := query_overpass (mk tile_bbox) w in
      let '(all_elements, successful_tiles, w) :=
        match result with
        | Some r =>
            match r_elements r with
            | Some tile_elements =>
                (all_elements ++ tile_elements, S successful_tiles,
                 (print (TileFound i (length tile_elements)) w).2)
            | None => (all_elements, successful_tiles, (print (TileFailed i) w).2)
            end
        | None => (all_elements, successful_tiles, (print (TileFailed i) w).2)
        end in
      let w := (sleep w).2 in
      tile_loop mk (S i) rest all_elements successful_tiles w
  end.

(** query_overpass_with_chunking *)
Definition query_overpass_with_chunking (search_term : string) (bbox : bbox)
    (place_types : option (list string)) (exact_match : bool) (timeout : Z)
    (broad_search : bool) : io (option response) := fun w =>
  let area := calculate_bbox_area bbox in
  let mk := plan search_term place_types exact_match timeout broad_search in
  if Qle_bool area 1 then
    let w := (print SingleQuery w).2 in
    query_overpass (mk bbox) w
  else
    let tiles := split_bbox_into_tiles bbox DEFAULT_MAX_TILES in
    let w := (print (SplitInto (length tiles)) w).2 in
    let '((all_elements, successful_tiles), w) := tile_loop mk 1 tiles [] 0 w in
    let w := (print (Completed successful_tiles (length tiles)) w).2 in
    let unique_elements := deduplicate all_elements in
    let w :=
      if decide (length all_elements ≠ length unique_elements) then
        (print (RemovedDuplicates (length all_elements - length unique_elements)) w).2
      else w in
    (Some {| r_elements := Some unique_elements;
             r_generator := Some "place_detective_chunked" |}, w).

(** Step 1 of main: fetch, then normalise; "Query failed" leaves no places. *)
Definition investigate (search_term : string) (bbox : bbox)
    (place_types : option (list string)) (exact_match : bool) (timeout : Z)
    : io (result (list place)) := fun w =>
  let '(result, w) :=
    query_overpass_with_chunking search_term bbox place_types exact_match
      timeout false w in
  match result with
  | Some r =>
      if truthy r then
        (elements ← getitem "elements" (r_elements r);
         Normalizer.extract_place_info elements, w)
      else (mret [], w)
  | None => (mret [], w)
  end.

(** What the caller of the orchestrator can branch on, as main does with
    [if result:]. *)
Definition fetch_succeeded (result : option response) : bool :=
  match result with
  | Some r => truthy r
  | None => false
  end.

End Fetch.

(** ** Similarity engine *)

(** The three scorers of fuzzywuzzy's [fuzz] module. *)
Class Fuzz := {
  ratio : string → string → Z;
  token_sort_ratio : string → string → Z;
  token_set_ratio : string → string → Z
}.


Module Similarity.
Section WithFuzz.
Context {F : Fuzz}.

(** "Use multiple similarity algorithms and take the best score" *)
Definition similarity_of (target_lower name_lower : string) : Z :=
  let ratio_score := ratio target_lower name_lower in
  let token_sort_score := token_sort_ratio target_lower name_lower in
  let token_set_score := token_set_ratio target_lower name_lower in
  Z.max (Z.max ratio_score token_sort_score) token_set_score.

Definition score (a b : string) : Z := similarity_of (lower a) (lower b).

(** [sorted(xs, key=lambda x: x[1], reverse=True)]: a stable sort, larger
    keys first.  [insert_desc x l] puts [x] in front of the first entry
    whose key is not larger than its own. *)
Fixpoint insert_desc (x : string * Z) (l : list (string * Z)) : list (string * Z) :=
  match l with
  | [] => [x]
  | y :: l' => if x.2 <? y.2 then y :: insert_desc x l' else x :: l
  end.

Definition sorted_desc (l : list (string * Z)) : list (string * Z) :=
  foldr insert_desc [] l.

(** The two length tests that skip a name before it is scored. *)
Definition too_short (target_name name : string) : bool :=
  len name <? Z.max 3 (len target_name `div` 3).

Definition too_different (target_lower name_lower : string) : bool :=
  Z.abs (len name_lower - len target_lower) >? len target_lower.

(** The body of the [for name in all_names] loop: what it appends. *)
Definition consider (target_name : string) (threshold : Z) (name : string)
    : list (string * Z) :=
  let target_lower := lower target_name in
  if too_short target_name name then []
  else
    let name_lower := lower name in
    if too_different target_lower name_lower then []
    else
      let similarity := similarity_of target_lower name_lower in
      if similarity >=? threshold then [(name, similarity)] else [].

(** find_similar_names *)
Definition find_similar_names (target_name : string) (all_names : list string)
    (threshold : Z) : list (string * Z) :=
  let similar_names := name ← all_names; consider target_name threshold name in
  sorted_desc similar_names.

End WithFuzz.
End Similarity.

(** ** Findings analyser *)

#[global] Instance result_fmap : FMap result := fun A B f m =>
  match m with
  | Ok a => Ok (f a)
  | Raise e => Raise e
  end.

Module Analyzer.

Record variation := {
  name1 : string;
  name2 : string;
  similarity : Z;
  places1 : list place;
  places2 : list place
}.

Record analysis := {
  total_places : nat;
  unique_names : nat;
  multiple_locations : Dict.t (list place);
  name_variations : list variation
}.

Section WithFuzz.
Context {F : Fuzz}.

(** "Group by exact name" *)
Fixpoint group_loop (places : list place) (name_groups : Dict.t (list place))
    : result (Dict.t (list place)) :=
  match places with
  | [] => mret name_groups
  | place :: rest =>
      let name := p_name place in
      let name_groups :=
        if Dict.contains name name_groups then name_groups
        else Dict.set name [] name_groups in
      group ← Dict.item name name_groups;
      group_loop rest (Dict.set name (group ++ [place]) name_groups)
  end.

(** "Find names with multiple locations" *)
Definition multiple_loop (name_groups : Dict.t (list place))
    : Dict.t (list place) :=
  foldl (fun found '(name, group) =>
           if (1 <? length group)%nat then Dict.set name group found else found)
        [] (Dict.items name_groups).

(** [for name2 in names[i+1:]] *)
Fixpoint inner_loop (name_groups : Dict.t (list place)) (name1 : string)
    (rest : list string) : result (list variation) :=
  match rest with
  | [] => mret []
  | name2 :: rest' =>
      let similarity := ratio (lower name1) (lower name2) in
      found ←
        (if similarity >? 80 then
           places1 ← Dict.item name1 name_groups;
           places2 ← Dict.item name2 name_groups;
           mret [ {| name1 := name1; name2 := name2; similarity := similarity;
                     places1 := places1; places2 := places2 |} ]
         else mret []);
      more ← inner_loop name_groups name1 rest';
      mret (found ++ more)
  end.

(** [for i, name1 in enumerate(names)], from index [i] on. *)
Fixpoint outer_loop (name_groups : Dict.t (list place)) (names : list string)
    (i : nat) (todo : list string) : result (list variation) :=
  match todo with
  | [] => mret []
  | name1 :: todo' =>
      found ← inner_loop name_groups name1 (drop (S i) names);
      more ← outer_loop name_groups names (S i) todo';
      mret (found ++ more)
  end.

(** analyze_findings *)
Definition analyze_findings (places : list place) : result analysis :=
  name_groups ← group_loop places [];
  let names := Dict.keys name_groups in
  variations ← outer_loop name_groups names 0 names;
  mret {| total_places := length places;
          unique_names := size (list_to_set (p_name <$> places) : gset string);
          multiple_locations := multiple_loop name_groups;
          name_variations := variations |}.

(** *** The name variations as the specification words them *)

(** The distinct names, in the order they are first met. *)
Fixpoint discovery_order (names : list string) : list string :=
  match names with
  | [] => []
  | n :: names' => n :: filter (fun m => m ≠ n) (discovery_order names')
  end.

(** Every name with every later one: outer loop over the names, inner loop
    over the names after it. *)
Fixpoint pairs_in_order (names : list string) : list (string * string) :=
  match names with
  | [] => []
  | n :: names' => (pair n <$> names') ++ pairs_in_order names'
  end.

(** The full group of records sharing a name. *)
Definition group_of (places : list place) (name : string) : list place :=
  filter (fun p => p_name p = name) places.

Definition variation_of (places : list place) (pr : string * string)
    : option variation :=
  let s := ratio (lower pr.1) (lower pr.2) in
  if 80 <? s then
    Some {| name1 := pr.1; name2 := pr.2; similarity := s;
            places1 := group_of places pr.1; places2 := group_of places pr.2 |}
  else None.

Definition name_variations_spec (places : list place) : list variation :=
  omap (variation_of places) (pairs_in_order (discovery_order (p_name <$> places))).

End WithFuzz.
End Analyzer.

(** ** Definitions used by the statements and proofs *)

(** The exit test of the grid-size loop, and the grid size it defines. *)
Definition grid_exit (area : Q) (max_tiles g : Z) : Prop :=
  max_tiles ≤ g * g ∨ (area / inject_Z (g * g) <= 1)%Q.

Definition smallest_grid_size (area : Q) (max_tiles g : Z) : Prop :=
  2 ≤ g ∧ grid_exit area max_tiles g ∧
  ∀ h, 2 ≤ h < g → ¬ grid_exit area max_tiles h.

(** The regions of CITY_BBOXES used as examples. *)
Definition bangkok : bbox :=
  {| south := 135 # 10; west := 1001 # 10; north := 142 # 10; east := 1009 # 10 |}.

Definition thailand : bbox :=
  {| south := 56 # 10; west := 973 # 10; north := 205 # 10; east := 1056 # 10 |}.

(** The two nested loops of split_bbox_into_tiles. *)
Definition grid (b : bbox) (g : Z) (lat_step lon_step : Q) : list bbox :=
  i ← range g; j ← range g; [tile_at b lat_step lon_step i j].

(** Records and the keys they carry. *)
Definition present {A} (field : option A) : bool :=
  match field with Some _ => true | None => false end.

(** [ 'tags' in element and 'name' in element['tags'] ] *)
Definition named (e : element) : bool :=
  match e_tags e with
  | Some tags => present (Dict.get "name" tags)
  | None => false
  end.

Definition is_node (e : element) : bool := bool_decide (e_type e = "node").

(** A named node carries [lat] and [lon]. *)
Definition node_has_coordinates (e : element) : bool :=
  implb (named e && is_node e) (present (e_lat e) && present (e_lon e)).

(** The [center] of a named way or relation, when it has one, carries
    [lat] and [lon]. *)
Definition center_has_coordinates (e : element) : bool :=
  implb (named e && negb (is_node e))
    match e_center e with
    | Some c => present (c_lat c) && present (c_lon c)
    | None => true
    end.

(** Latitude and longitude are both set or both null. *)
Definition coordinates_paired (p : place) : Prop :=
  (is_Some (p_lat p) ∧ is_Some (p_lon p)) ∨ (p_lat p = None ∧ p_lon p = None).

(** Example records. *)
Definition shop_then_amenity : element :=
  {| e_type := "node"; e_id := 7;
     e_lat := Some (137 # 10); e_lon := Some (1005 # 10); e_center := None;
     e_tags := Some [("name", "Big C"); ("shop", "supermarket");
                     ("amenity", "cafe")] |}.

Definition amenity_then_shop : element :=
  {| e_type := "node"; e_id := 8;
     e_lat := Some (137 # 10); e_lon := Some (1005 # 10); e_center := None;
     e_tags := Some [("name", "Big C"); ("amenity", "cafe");
                     ("shop", "supermarket")] |}.

Definition way_with_empty_center : element :=
  {| e_type := "way"; e_id := 9; e_lat := None; e_lon := None;
     e_center := Some {| c_lat := None; c_lon := None |};
     e_tags := Some [("name", "Lumpini Park"); ("leisure", "park")] |}.

Definition way_with_center : element :=
  {| e_type := "way"; e_id := 10; e_lat := None; e_lon := None;
     e_center := Some {| c_lat := Some (137 # 10); c_lon := Some (1005 # 10) |};
     e_tags := Some [("name", "Lumpini Park"); ("leisure", "park")] |}.

Definition node_without_coordinates : element :=
  {| e_type := "node"; e_id := 11; e_lat := None; e_lon := None;
     e_center := None; e_tags := Some [("name", "Big C")] |}.

(** *** Identity of raw records *)

(** The characters of a decimal numeral. *)
Definition numeral_char (c : ascii) : bool :=
  (c =? "-")%char
  || ((48 <=? nat_of_ascii c) && (nat_of_ascii c <=? 57))%nat.

(** A type tag with no digit and no sign in it, as "node", "way" and
    "relation" are. *)
Fixpoint plain_tag (t : string) : bool :=
  match t with
  | EmptyString => true
  | String c t' => negb (numeral_char c) && plain_tag t'
  end.

Definition identity (e : element) : string * Z := (e_type e, e_id e).

(** The elements the deduplication loop keeps, given the ids seen so far. *)
Fixpoint dedup_from (seen_ids : gset string) (all_elements : list element)
    : list element :=
  match all_elements with
  | [] => []
  | element :: rest =>
      if decide (Fetch.element_id element ∈ seen_ids) then dedup_from seen_ids rest
      else element :: dedup_from ({[Fetch.element_id element]} ∪ seen_ids) rest
  end.

(** *** Outcomes of requests *)

(** [not (result and 'elements' in result)] *)
Definition outcome_failed (o : option Fetch.response) : bool :=
  match o with
  | Some r => negb (present (Fetch.r_elements r))
  | None => true
  end.

(** A response that matched nothing. *)
Definition empty_response : Fetch.response :=
  {| Fetch.r_elements := Some []; Fetch.r_generator := Some "Overpass API" |}.

Definition fresh_net (script : list (option Fetch.response)) : Fetch.net :=
  {| Fetch.script := script; Fetch.sent := []; Fetch.sleeps := 0;
     Fetch.console := [] |}.

(** The record of the end-to-end scenario, the place it normalises to, and
    a service that answers the first request with the record twice. *)
Definition lotus : element :=
  {| e_type := "node"; e_id := 1;
     e_lat := Some (137 # 10); e_lon := Some (1005 # 10); e_center := None;
     e_tags := Some [("name", "Lotus Mart"); ("shop", "supermarket")] |}.

Definition lotus_place : place :=
  {| p_name := "Lotus Mart"; p_type := "node"; p_id := 1;
     p_lat := Some (137 # 10); p_lon := Some (1005 # 10);
     p_category := "shop"; p_subcategory := "supermarket";
     p_address := None; p_phone := None; p_website := None;
     p_opening_hours := None; p_brand := None; p_cuisine := None;
     p_tags := [("name", "Lotus Mart"); ("shop", "supermarket")] |}.

Definition lotus_net : Fetch.net :=
  fresh_net [Some {| Fetch.r_elements := Some [lotus; lotus];
                     Fetch.r_generator := Some "Overpass API" |}].

(** *** An instance of the scorer interface *)

(** Length of a longest common subsequence. *)
Fixpoint lcs (s t : list ascii) : nat :=
  match s with
  | [] => 0%nat
  | a :: s' =>
      (fix lcs_row (t : list ascii) : nat :=
         match t with
         | [] => 0%nat
         | b :: t' =>
             if Ascii.eqb a b then S (lcs s' t')
             else Nat.max (lcs s' t) (lcs_row t')
         end) t
  end.

(** [matched] characters out of [total], as a rounded percentage. *)
Definition percent (matched total : nat) : Z :=
  if decide (total = 0%nat) then 100
  else (100 * Z.of_nat matched + Z.of_nat total `div` 2) `div` Z.of_nat total.

(** Twice the common subsequence over the two lengths. *)
Definition lcs_ratio (s t : string) : Z :=
  let s := list_ascii_of_string s in
  let t := list_ascii_of_string t in
  percent (2 * lcs s t) (length s + length t).

(** The words of a string in lexical order, and the same without
    repeated words. *)
Fixpoint insert_token (w : string) (l : list string) : list string :=
  match l with
  | [] => [w]
  | v :: l' => if String.leb w v then w :: l else v :: insert_token w l'
  end.

Definition sorted_tokens (s : string) : string :=
  join " " (foldr insert_token [] (String.words s)).

Definition token_set (s : string) : string :=
  join " " (foldr insert_token [] (remove_dups (String.words s))).

(** A scorer in the manner of fuzzywuzzy: the ratio of the strings, of
    their sorted words, and of their sets of words. *)
Definition lcs_fuzz : Fuzz :=
  {| ratio := lcs_ratio;
     token_sort_ratio := λ s t, lcs_ratio (sorted_tokens s) (sorted_tokens t);
     token_set_ratio := λ s t, lcs_ratio (token_set s) (token_set t) |}.

(** *** What find_similar_names keeps *)


(** The three tests a candidate passes to be retained. *)
Definition retained `{F : Fuzz} (target : string) (threshold : Z)
    (name : string) : Prop :=
  Z.max 3 (len target `div` 3) ≤ len name ∧
  Z.abs (len name - len target) ≤ len target ∧
  threshold ≤ Similarity.score target name.

#[global] Instance retained_dec `{F : Fuzz} target threshold name :
  Decision (retained target threshold name) :=
  and_dec _ (and_dec _ _).

(** *** The state of the grouping loop *)

(** [name_groups] after the places [seen]: its keys are their names in
    discovery order, and each key holds the places of that name. *)
Definition groups_of (seen : list place) (name_groups : Dict.t (list place))
    : Prop :=
  Dict.keys name_groups = Analyzer.discovery_order (p_name <$> seen) ∧
  ∀ n, n ∈ Dict.keys name_groups →
       Dict.get n name_groups = Some (Analyzer.group_of seen n).

(** ** Definitions for the further properties *)

(** The outcomes of the next [n] requests: the entries of the script, and
    failures once it has run out. *)
Fixpoint next_outcomes (n : nat) (script : list (option Fetch.response))
    : list (option Fetch.response) :=
  match n with
  | O => []
  | S n' => default None (head script) :: next_outcomes n' (tail script)
  end.

(** What a tile's outcome adds to [all_elements]. *)
Definition tile_elements (o : option Fetch.response) : list element :=
  match o with
  | Some r => default [] (Fetch.r_elements r)
  | None => []
  end.

(** What the tile loop prints for the outcomes of the tiles numbered from
    [i] on. *)
Fixpoint tile_messages (i : nat) (outcomes : list (option Fetch.response))
    : list Fetch.message :=
  match outcomes with
  | [] => []
  | o :: rest =>
      (if outcome_failed o then Fetch.TileFailed i
       else Fetch.TileFound i (length (tile_elements o)))
      :: tile_messages (S i) rest
  end.

(** A record with its attribute map replaced. *)
Definition with_tags (e : element) (tags : Dict.t string) : element :=
  {| e_type := e_type e; e_id := e_id e; e_lat := e_lat e; e_lon := e_lon e;
     e_center := e_center e; e_tags := Some tags |}.

(** The address attributes, in the order they are assembled. *)
Definition ADDRESS_KEYS : list string :=
  ["addr:housenumber"; "addr:street"; "addr:district"; "addr:city"].

(** What a place keeps of the record it comes from. *)
Definition place_of (e : element) (p : place) : Prop :=
  p_type p = e_type e ∧ p_id p = e_id e ∧
  e_tags e = Some (p_tags p) ∧
  Dict.get "name" (p_tags p) = Some (p_name p) ∧
  (is_node e = false → e_center e = None → p_lat p = None ∧ p_lon p = None).

(** ** Query planner: the clauses of a query

    Both generate_overpass_query and generate_broad_overpass_query build
    the list [queries] the same way, from a name pattern, the bounding box
    as text and the place types. *)

Module Planner.

(** The double quote. *)
Definition dq : string := String "034"%char EmptyString.

(** [s.split('=', 1)] for a string with an '=' in it: what stands before
    the first '=' and what stands after it; None when ['=' in s] is
    false. *)
Fixpoint split_eq (s : string) : option (string * string) :=
  match s with
  | EmptyString => None
  | String c s' =>
      if Ascii.eqb c "=" then Some (EmptyString, s')
      else match split_eq s' with
           | Some (key, value) => Some (String c key, value)
           | None => None
           end
  end.

(** ['=' in s] *)
Fixpoint contains_eq (s : string) : bool :=
  match s with
  | EmptyString => false
  | String c s' => Ascii.eqb c "=" || contains_eq s'
  end.

(** "Handle key=value format" and "Handle key-only format" *)
Definition type_filter (place_type : string) : string :=
  match split_eq place_type with
  | Some (key, value) =>
      "[" +:+ dq +:+ key +:+ dq +:+ "=" +:+ dq +:+ value +:+ dq +:+ "]"
  | None => "[" +:+ dq +:+ place_type +:+ dq +:+ "]"
  end.

(** The three lines added by one [queries.extend([...])]. *)
Definition extend3 (pattern type_filter bbox : string) : list string :=
  [ "node[" +:+ pattern +:+ "]" +:+ type_filter +:+ "(" +:+ bbox +:+ ");";
    "way[" +:+ pattern +:+ "]" +:+ type_filter +:+ "(" +:+ bbox +:+ ");";
    "relation[" +:+ pattern +:+ "]" +:+ type_filter +:+ "(" +:+ bbox +:+ ");" ].

(** The list [queries]: [if place_types:] is false for None and for the
    empty list. *)
Definition queries_of (pattern bbox : string)
    (place_types : option (list string)) : list string :=
  match place_types with
  | Some (first :: rest) =>
      place_type ← first :: rest;
      extend3 pattern (type_filter place_type) bbox
  | _ => extend3 pattern "" bbox
  end.

End Planner.

(** ** main: region tables and the fuzzy expansion *)

Module Main.

Definition CITY_BBOXES : Dict.t bbox :=
  [ ("bangkok", bangkok);
    ("chiangmai", {| south := 186 # 10; west := 988 # 10; north := 190 # 10; east := 991 # 10 |});
    ("phuket", {| south := 77 # 10; west := 982 # 10; north := 83 # 10; east := 985 # 10 |});
    ("pattaya", {| south := 128 # 10; west := 1008 # 10; north := 131 # 10; east := 1010 # 10 |});
    ("chiangrai", {| south := 198 # 10; west := 997 # 10; north := 200 # 10; east := 1002 # 10 |});
    ("hatyai", {| south := 69 # 10; west := 1004 # 10; north := 71 # 10; east := 1006 # 10 |});
    ("korat", {| south := 148 # 10; west := 1020 # 10; north := 150 # 10; east := 1022 # 10 |});
    ("thailand", thailand) ].

Definition PROVINCE_BBOXES : Dict.t bbox :=
  [ ("bangkok", {| south := 134 # 10; west := 1000 # 10; north := 143 # 10; east := 1010 # 10 |});
    ("chiangmai", {| south := 178 # 10; west := 978 # 10; north := 205 # 10; east := 996 # 10 |});
    ("phuket", {| south := 76 # 10; west := 981 # 10; north := 84 # 10; east := 986 # 10 |});
    ("pattaya", {| south := 125 # 10; west := 1005 # 10; north := 134 # 10; east := 1012 # 10 |});
    ("chiangrai", {| south := 193 # 10; west := 994 # 10; north := 205 # 10; east := 1005 # 10 |});
    ("hatyai", {| south := 66 # 10; west := 1001 # 10; north := 73 # 10; east := 1008 # 10 |});
    ("korat", {| south := 142 # 10; west := 1015 # 10; north := 158 # 10; east := 1028 # 10 |});
    ("thailand", thailand) ].

(** "Select bounding box based on area scope" *)
Definition select_bbox (area_scope city : string) : result bbox :=
  if decide (area_scope = "province") then Dict.item city PROVINCE_BBOXES
  else Dict.item city CITY_BBOXES.

(** "Get detailed info for fuzzy matches": the top 10 matches, each with
    the first place of its name. *)
Definition fuzzy_places (similar_names : list (string * Z))
    (all_places : list place) : list (place * Z) :=
  '(name, score) ← take 10 similar_names;
  let matching_places := filter (λ p, p_name p = name) all_places in
  match matching_places with
  | p :: _ => [(p, score)]
  | [] => []
  end.

(** Step 3 of main, from the normalised places of the broad search on. *)
Definition fuzzy_expansion `{F : Fuzz} (search_term : string)
    (fuzzy_threshold : Z) (all_places : list place) : list (place * Z) :=
  let all_names := p_name <$> all_places in
  let similar_names :=
    Similarity.find_similar_names search_term all_names fuzzy_threshold in
  fuzzy_places similar_names all_places.

End Main.

(** * Properties *)

(** ** Region geometry *)

Module GeometryFacts.

Lemma grid_continue_false area max_tiles g :
  grid_continue area max_tiles g = false ↔ grid_exit area max_tiles g.
Proof.
  unfold grid_continue, grid_exit.
  rewrite andb_false_iff, negb_false_iff, Z.ltb_ge, Qle_bool_iff. tauto.
Qed.

Lemma grid_continue_true area max_tiles g :
  grid_continue area max_tiles g = true ↔ ¬ grid_exit area max_tiles g.
Proof.
  rewrite <- grid_continue_false. destruct (grid_continue _ _ _); split; congruence.
Qed.

(** The loop stops by its guard, not by its fuel, whenever the fuel covers
    the distance from the current grid size to [max_tiles]. *)
Lemma grid_loop_exit area max_tiles fuel : ∀ g,
  0 ≤ g → max_tiles - g ≤ Z.of_nat fuel →
  let r := grid_loop fuel area max_tiles g in
  g ≤ r ∧ grid_continue area max_tiles r = false ∧
  ∀ h, g ≤ h < r → grid_continue area max_tiles h = true.
Proof.
  induction fuel as [|fuel IH]; intros g Hg Hfuel; simpl.
  - split; [lia|]. split; [|intros; lia].
    unfold grid_continue. replace (g * g <? max_tiles) with false; [done|].
    symmetry. apply Z.ltb_ge. nia.
  - destruct (grid_continue area max_tiles g) eqn:Hc.
    + destruct (IH (g + 1)) as (Hle & Hstop & Hbelow); [lia|lia|].
      split; [lia|]. split; [done|].
      intros h Hh. destruct (decide (h = g)) as [->|]; [done|].
      apply Hbelow. lia.
    + split; [lia|]. split; [done|]. intros; lia.
Qed.

Lemma compute_grid_size_smallest area max_tiles :
  smallest_grid_size area max_tiles (compute_grid_size area max_tiles).
Proof.
  destruct (grid_loop_exit area max_tiles (Z.to_nat max_tiles) 2)
    as (Hle & Hstop & Hbelow); [lia|lia|].
  fold (compute_grid_size area max_tiles) in *.
  split; [done|]. split; [by apply grid_continue_false|].
  intros h Hh. apply grid_continue_true, Hbelow. done.
Qed.

Lemma smallest_grid_size_unique area max_tiles g1 g2 :
  smallest_grid_size area max_tiles g1 →
  smallest_grid_size area max_tiles g2 → g1 = g2.
Proof.
  intros (H1 & E1 & M1) (H2 & E2 & M2).
  destruct (Z.lt_trichotomy g1 g2) as [Hlt|[->|Hgt]]; [|done|].
  - destruct (M2 g1); [lia|done].
  - destruct (M1 g2); [lia|done].
Qed.


(** *** The grid as a list *)

Lemma bind_singleton_fmap {A B} (f : A → B) (l : list A) :
  (x ← l; [f x]) = f <$> l.
Proof. induction l as [|x l IH]; [done|]. by rewrite bind_cons, IH. Qed.

Lemma length_bind_blocks {A B} (f : A → list B) (m : nat) (l : list A) :
  (∀ x, length (f x) = m) → length (l ≫= f) = (length l * m)%nat.
Proof.
  intros Hf. induction l as [|x l IH]; [done|].
  rewrite bind_cons, length_app, Hf, IH. simpl. lia.
Qed.

Lemma lookup_bind_blocks {A B} (f : A → list B) (m : nat) (l : list A) :
  (∀ x, length (f x) = m) →
  ∀ (i j : nat) x, l !! i = Some x → (j < m)%nat →
  (l ≫= f) !! (i * m + j)%nat = f x !! j.
Proof.
  intros Hf. induction l as [|y l IH]; intros i j x Hi Hj; [done|].
  rewrite bind_cons. destruct i as [|i]; simpl in *.
  - injection Hi as ->. apply lookup_app_l. by rewrite Hf.
  - rewrite lookup_app_r; rewrite Hf; [|lia].
    replace (m + i * m + j - m)%nat with (i * m + j)%nat by lia. by apply IH.
Qed.

Section Grid.
Context (b : bbox) (g : Z) (lat_step lon_step : Q).

Lemma grid_rows :
  grid b g lat_step lon_step = i ← range g; tile_at b lat_step lon_step i <$> range g.
Proof.
  unfold grid. apply list_bind_ext; [|done]. intros i. apply bind_singleton_fmap.
Qed.

Lemma length_grid :
  0 ≤ g → length (grid b g lat_step lon_step) = Z.to_nat (g * g).
Proof.
  intros Hg. rewrite grid_rows.
  rewrite (length_bind_blocks _ (Z.to_nat g)).
  - unfold range. rewrite length_seqZ, Z2Nat.inj_mul; lia.
  - intros i. unfold range. by rewrite length_fmap, length_seqZ.
Qed.


Lemma elem_of_grid t :
  t ∈ grid b g lat_step lon_step → ∃ i j, 0 ≤ i < g ∧ 0 ≤ j < g ∧ t = tile_at b lat_step lon_step i j.
Proof.
  unfold grid. intros (i & Ht & Hi)%list_elem_of_bind.
  apply list_elem_of_bind in Ht as (j & Ht & Hj).
  apply list_elem_of_singleton in Ht. unfold range in *.
  apply elem_of_seqZ in Hi, Hj. exists i, j. repeat split; try lia. done.
Qed.

Lemma tile_at_height i j :
  (north (tile_at b lat_step lon_step i j) - south (tile_at b lat_step lon_step i j)
   == lat_step)%Q.
Proof. simpl. rewrite inject_Z_plus. change (inject_Z 1) with 1%Q. ring. Qed.

Lemma tile_at_width i j :
  (east (tile_at b lat_step lon_step i j) - west (tile_at b lat_step lon_step i j)
   == lon_step)%Q.
Proof. simpl. rewrite inject_Z_plus. change (inject_Z 1) with 1%Q. ring. Qed.

Lemma tile_at_area i j :
  (calculate_bbox_area (tile_at b lat_step lon_step i j) == lat_step * lon_step)%Q.
Proof.
  unfold calculate_bbox_area. by rewrite tile_at_height, tile_at_width.
Qed.

End Grid.

Lemma total_area_uniform (c : Q) (tiles : list bbox) :
  (∀ t, t ∈ tiles → (calculate_bbox_area t == c)%Q) →
  (total_area tiles == inject_Z (Z.of_nat (length tiles)) * c)%Q.
Proof.
  induction tiles as [|t tiles IH]; intros Hc.
  - simpl. ring.
  - cbn [total_area foldr length]. fold (total_area tiles).
    rewrite (Hc t), IH; [|intros; apply Hc; by right|by left].
    rewrite Nat2Z.inj_succ, <- Z.add_1_r, inject_Z_plus.
    change (inject_Z 1) with 1%Q. ring.
Qed.

Lemma split_small b max_tiles :
  (calculate_bbox_area b <= 1)%Q → split_bbox_into_tiles b max_tiles = [b].
Proof.
  intros H. unfold split_bbox_into_tiles.
  apply Qle_bool_iff in H. unfold calculate_bbox_area in H. by rewrite H.
Qed.

Lemma split_large b max_tiles :
  (1 < calculate_bbox_area b)%Q →
  split_bbox_into_tiles b max_tiles =
    let g := compute_grid_size (calculate_bbox_area b) max_tiles in
    grid b g ((north b - south b) / inject_Z g) ((east b - west b) / inject_Z g).
Proof.
  intros H. unfold split_bbox_into_tiles.
  destruct (Qle_bool _ 1) eqn:E; [|done].
  apply Qle_bool_iff in E. fold (calculate_bbox_area b) in E.
  by apply Qlt_not_le in H.
Qed.

(** *** Examples *)

(** A region of area 9 with at most 16 tiles is cut 3 by 3: at grid size 3
    the tiles have area exactly 1. *)
Example grid_size_area_9 : compute_grid_size 9 16 = 3.
Proof. reflexivity. Qed.

(** The tile cap can be passed: with [max_tiles = 17] the loop runs to
    grid size 5, that is 25 tiles. *)
Example grid_size_above_cap : compute_grid_size 100 17 = 5.
Proof. reflexivity. Qed.

Example split_3_by_3 :
  split_bbox_into_tiles {| south := 0; west := 0; north := 3; east := 3 |} 16
  !! 5%nat
  = Some {| south := 3 # 3; west := 6 # 3; north := 6 # 3; east := 9 # 3 |}.
Proof. reflexivity. Qed.

End GeometryFacts.

Import GeometryFacts.



(** C5: over exact rationals the areas of the tiles of a region add up to
    the area of the region, and the plan has [g * g] tiles for the grid size
    [g] it is laid out on: the one the loop computes when the region is
    split, 1 when the region is returned as it is. *)
Theorem C5_tiles_cover_area (b : bbox) (max_tiles : Z) :
  (south b < north b)%Q → (west b < east b)%Q →
  let tiles := split_bbox_into_tiles b max_tiles in
  let g := if Qle_bool (calculate_bbox_area b) 1 then 1
           else compute_grid_size (calculate_bbox_area b) max_tiles in
  (total_area tiles == calculate_bbox_area b)%Q ∧
  length tiles = Z.to_nat (g * g).
Proof.
  intros _ _. cbv zeta.
  destruct (Qle_bool (calculate_bbox_area b) 1) eqn:E.
  - apply Qle_bool_iff in E. rewrite (split_small _ _ E). split; [|done].
    simpl. ring.
  - assert (1 < calculate_bbox_area b)%Q as Harea.
    { apply Qnot_le_lt. intros H%Qle_bool_iff. congruence. }
    rewrite (split_large _ _ Harea). cbv zeta.
    pose proof (compute_grid_size_smallest (calculate_bbox_area b) max_tiles)
      as (Hg2 & _).
    set (g := compute_grid_size _ _) in *.
    split; [|apply length_grid; lia].
    rewrite (total_area_uniform
               ((north b - south b) / inject_Z g * ((east b - west b) / inject_Z g))).
    + rewrite length_grid, Z2Nat.id, inject_Z_mult by nia.
      unfold calculate_bbox_area. field.
      intros H. unfold Qeq in H. simpl in H. lia.
    + intros t (i & j & _ & _ & ->)%elem_of_grid. apply tile_at_area.
Qed.

Lemma C5_tiles_cover_area_witness :
  (total_area (split_bbox_into_tiles thailand 16) == calculate_bbox_area thailand)%Q ∧
  length (split_bbox_into_tiles thailand 16) = 16%nat.
Proof.
  destruct (C5_tiles_cover_area thailand 16) as [Harea Hlen];
    [reflexivity|reflexivity|].
  split; [exact Harea|exact Hlen].
Defined.

(** ** Record normaliser *)

(** Unfold the operations of the [result] monad. *)
Ltac result_simpl :=
  cbv [mret result_ret mbind result_bind fmap result_fmap getitem] in *.

Module NormalizerFacts.
Import Normalizer.

Lemma category_loop_first pre key value post c s :
  key ∈ CATEGORY_KEYS →
  (∀ k v, (k, v) ∈ pre → k ∉ CATEGORY_KEYS) →
  category_loop (pre ++ (key, value) :: post) c s = (key, value).
Proof.
  intros Hkey. induction pre as [|[k v] pre IH]; intros Hpre; simpl.
  - by rewrite bool_decide_eq_true_2.
  - rewrite bool_decide_eq_false_2; [|apply (Hpre k v); by left].
    apply IH. intros k' v' Hin. apply (Hpre k' v'). by right.
Qed.

Lemma category_loop_none items c s :
  (∀ k v, (k, v) ∈ items → k ∉ CATEGORY_KEYS) →
  category_loop items c s = (c, s).
Proof.
  induction items as [|[k v] items IH]; intros Hnone; simpl; [done|].
  rewrite bool_decide_eq_false_2; [|apply (Hnone k v); by left].
  apply IH. intros k' v' Hin. apply (Hnone k' v'). by right.
Qed.

Lemma extract_element_Some e p :
  extract_element e = Ok (Some p) →
  ∃ tags name lat lon,
    e_tags e = Some tags ∧ Dict.get "name" tags = Some name ∧
    coordinates e = Ok (lat, lon) ∧
    p_name p = name ∧ p_lat p = lat ∧ p_lon p = lon ∧
    (p_category p, p_subcategory p) = determine_category tags.
Proof.
  unfold extract_element. destruct (e_tags e) as [tags|]; [|by result_simpl].
  destruct (Dict.get "name" tags) as [name|] eqn:Hname; [|by result_simpl].
  destruct (coordinates e) as [[lat lon]|err]; [|by result_simpl].
  destruct (determine_category tags) as [c s] eqn:Hc. result_simpl.
  intros [= <-]. exists tags, name, lat, lon. simpl. by rewrite Hc.
Qed.

(** When reading the coordinates succeeds and when it raises. *)
Lemma coordinates_Ok e :
  named e = true →
  (∃ c, coordinates e = Ok c) ↔
  node_has_coordinates e = true ∧ center_has_coordinates e = true.
Proof.
  intros Hn.
  unfold node_has_coordinates, center_has_coordinates, coordinates, is_node.
  rewrite Hn. case_decide as Hnode.
  - rewrite (bool_decide_eq_true_2 _ Hnode).
    destruct (e_lat e), (e_lon e); result_simpl; simpl; naive_solver.
  - rewrite (bool_decide_eq_false_2 _ Hnode).
    destruct (e_center e) as [[[lat|] [lon|]]|]; result_simpl; simpl;
      naive_solver.
Qed.

Lemma coordinates_paired_Ok e lat lon :
  coordinates e = Ok (lat, lon) →
  (is_Some lat ∧ is_Some lon) ∨ (lat = None ∧ lon = None).
Proof.
  unfold coordinates. case_decide.
  - destruct (e_lat e), (e_lon e); result_simpl; naive_solver.
  - destruct (e_center e) as [[[?|] [?|]]|]; result_simpl; naive_solver.
Qed.

Lemma extract_element_unnamed e : named e = false → extract_element e = Ok None.
Proof.
  unfold named, extract_element. destruct (e_tags e) as [tags|]; [|done].
  by destruct (Dict.get "name" tags).
Qed.

Lemma extract_element_Ok e :
  (∃ r, extract_element e = Ok r) ↔
  node_has_coordinates e = true ∧ center_has_coordinates e = true.
Proof.
  destruct (named e) eqn:Hn.
  - rewrite <- (coordinates_Ok e Hn). unfold named, extract_element in *.
    destruct (e_tags e) as [tags|]; [|done].
    destruct (Dict.get "name" tags) as [name|]; [|done].
    destruct (coordinates e) as [[lat lon]|err]; result_simpl.
    + destruct (determine_category tags). naive_solver.
    + naive_solver.
  - rewrite (extract_element_unnamed e Hn).
    unfold node_has_coordinates, center_has_coordinates. rewrite Hn.
    naive_solver.
Qed.

Lemma extract_place_info_cons e elements :
  extract_place_info (e :: elements) =
    match extract_element e, extract_place_info elements with
    | Ok p, Ok places => Ok (option_list p ++ places)
    | Raise err, _ => Raise err
    | _, Raise err => Raise err
    end.
Proof.
  simpl. destruct (extract_element e); [|done].
  by destruct (extract_place_info elements).
Qed.

Lemma extract_place_info_Ok elements :
  (∃ places, extract_place_info elements = Ok places) ↔
  forallb node_has_coordinates elements = true ∧
  forallb center_has_coordinates elements = true.
Proof.
  induction elements as [|e elements IH].
  - naive_solver.
  - rewrite extract_place_info_cons. cbn [forallb].
    rewrite !andb_true_iff.
    pose proof (extract_element_Ok e) as He.
    destruct (extract_element e) as [r|err];
      destruct (extract_place_info elements) as [ps|err']; naive_solver.
Qed.

Lemma extract_place_info_paired elements : ∀ places,
  extract_place_info elements = Ok places → Forall coordinates_paired places.
Proof.
  induction elements as [|e elements IH]; intros places.
  - intros [= <-]. constructor.
  - rewrite extract_place_info_cons.
    destruct (extract_element e) as [r|err] eqn:He; [|done].
    destruct (extract_place_info elements) as [ps|err]; [|done].
    intros [= <-]. apply Forall_app. split; [|by apply IH].
    destruct r as [p|]; [|constructor]. constructor; [|constructor].
    apply extract_element_Some in He
      as (tags & name & lat & lon & _ & _ & Hc & _ & <- & <- & _).
    exact (coordinates_paired_Ok _ _ _ Hc).
Qed.

End NormalizerFacts.

Import NormalizerFacts.

(** C1, as the code has it: the category of a named record is the first
    entry of its attribute map, in the map's own order, whose key is one of
    amenity, shop, leisure, tourism, healthcare, education; the subcategory
    is that entry's value, and both are "unknown" when the map has no such
    key.  Of two category keys in one map, the one met first in the map
    wins, wherever it stands in the list of category keys. *)
Theorem C1_category_first_in_record (e : element) (tags : Dict.t string)
    (p : place) :
  e_tags e = Some tags →
  Normalizer.extract_element e = Ok (Some p) →
  (∀ pre key value post,
     Dict.items tags = pre ++ (key, value) :: post →
     key ∈ Normalizer.CATEGORY_KEYS →
     (∀ k v, (k, v) ∈ pre → k ∉ Normalizer.CATEGORY_KEYS) →
     p_category p = key ∧ p_subcategory p = value) ∧
  ((∀ k v, (k, v) ∈ Dict.items tags → k ∉ Normalizer.CATEGORY_KEYS) →
   p_category p = "unknown" ∧ p_subcategory p = "unknown").
Proof.
  intros Htags (tags' & name & lat & lon & Htags' & _ & _ & _ & _ & _ & Hcat)
    %extract_element_Some.
  assert (tags' = tags) as -> by congruence.
  unfold Normalizer.determine_category in Hcat. split.
  - intros pre key value post Hitems Hkey Hpre.
    rewrite Hitems, (category_loop_first _ _ _ _ _ _ Hkey Hpre) in Hcat.
    by injection Hcat.
  - intros Hnone. rewrite (category_loop_none _ _ _ Hnone) in Hcat.
    by injection Hcat.
Qed.

Lemma C1_category_first_in_record_witness :
  ∃ p, Normalizer.extract_element amenity_then_shop = Ok (Some p) ∧
       p_category p = "amenity" ∧ p_subcategory p = "cafe".
Proof.
  eexists. split; [reflexivity|].
  eapply (proj1 (C1_category_first_in_record amenity_then_shop _ _
                   eq_refl eq_refl) [("name", "Big C")] "amenity" "cafe"
                [("shop", "supermarket")]).
  - reflexivity.
  - compute_done.
  - intros k v [= -> ->]%list_elem_of_singleton. compute_done.
Defined.

(** C1 as claimed fails on a record whose map has [shop] before [amenity]:
    the priority list would give amenity/cafe, the normaliser gives
    shop/supermarket. *)
Lemma C1_counterexample :
  ∃ tags p,
    e_tags shop_then_amenity = Some tags ∧
    Dict.get "shop" tags = Some "supermarket" ∧
    Dict.get "amenity" tags = Some "cafe" ∧
    Normalizer.category_by_priority Normalizer.CATEGORY_KEYS tags
      = ("amenity", "cafe") ∧
    Normalizer.extract_place_info [shop_then_amenity] = Ok [p] ∧
    p_category p = "shop" ∧ p_subcategory p = "supermarket" ∧
    p_category p ≠ "amenity".
Proof.
  do 2 eexists. repeat split; try reflexivity. simpl. discriminate.
Qed.

(** C10, as the code has it: a named node without [lat] or [lon] makes the
    normaliser raise KeyError, and so does a named way or relation whose
    [center] lacks one of them.  When every named node carries both and
    every [center] of a named way or relation carries both, the normaliser
    returns, and each place it returns has latitude and longitude both set
    or both null. *)
Theorem C10_normalizer_partial (elements : list element) :
  (∀ e, e ∈ elements → named e = true → is_node e = true →
        e_lat e = None ∨ e_lon e = None →
        ∃ err, Normalizer.extract_place_info elements = Raise err) ∧
  (∀ e c, e ∈ elements → named e = true → is_node e = false →
          e_center e = Some c → c_lat c = None ∨ c_lon c = None →
          ∃ err, Normalizer.extract_place_info elements = Raise err) ∧
  (forallb node_has_coordinates elements = true →
   forallb center_has_coordinates elements = true →
   ∃ places, Normalizer.extract_place_info elements = Ok places ∧
             Forall coordinates_paired places).
Proof.
  assert (∀ e, e ∈ elements →
            node_has_coordinates e && center_has_coordinates e = false →
            ∃ err, Normalizer.extract_place_info elements = Raise err) as Hraise.
  { intros e He Hbad.
    destruct (Normalizer.extract_place_info elements) as [places|err] eqn:E;
      [|by eexists].
    destruct (proj1 (extract_place_info_Ok elements)) as [Hn Hc]; [by eexists|].
    rewrite forallb_forall in Hn, Hc. apply list_elem_of_In in He.
    rewrite (Hn e He), (Hc e He) in Hbad. done. }
  split; [|split].
  - intros e He Hn Hnode Hmiss. apply (Hraise e He).
    unfold node_has_coordinates. rewrite Hn, Hnode.
    destruct Hmiss as [->| ->]; simpl; [done|]. by rewrite andb_false_r.
  - intros e c He Hn Hnode Hc Hmiss. apply (Hraise e He).
    unfold center_has_coordinates. rewrite Hn, Hnode, Hc, andb_comm.
    destruct Hmiss as [->| ->]; simpl; [done|]. by rewrite andb_false_r.
  - intros Hnodes Hcenters.
    destruct (proj2 (extract_place_info_Ok elements)) as [places Hp]; [done|].
    exists places. split; [done|]. by eapply extract_place_info_paired.
Qed.

Lemma C10_normalizer_partial_witness :
  (∃ err, Normalizer.extract_place_info [node_without_coordinates] = Raise err) ∧
  (∃ err, Normalizer.extract_place_info [lotus; way_with_empty_center] = Raise err) ∧
  (∃ places,
     Normalizer.extract_place_info [amenity_then_shop; way_with_center] = Ok places ∧
     Forall coordinates_paired places).
Proof.
  split; [|split].
  - apply (proj1 (C10_normalizer_partial [node_without_coordinates])
             node_without_coordinates).
    + by left.
    + reflexivity.
    + reflexivity.
    + by left.
  - apply (proj1 (proj2 (C10_normalizer_partial [lotus; way_with_empty_center]))
             way_with_empty_center {| c_lat := None; c_lon := None |}).
    + right. by left.
    + reflexivity.
    + reflexivity.
    + reflexivity.
    + by left.
  - apply (proj2 (proj2
             (C10_normalizer_partial [amenity_then_shop; way_with_center])));
      reflexivity.
Defined.

(** C10 as claimed fails: the named nodes of this input all carry [lat]
    and [lon] (it has none), yet the normaliser raises, on the [center] of
    a way. *)
Lemma C10_counterexample :
  forallb node_has_coordinates [way_with_empty_center] = true ∧
  Normalizer.extract_place_info [way_with_empty_center] = Raise (KeyError "lat") ∧
  ¬ ∃ places, Normalizer.extract_place_info [way_with_empty_center] = Ok places.
Proof.
  split; [reflexivity|]. split; [reflexivity|]. intros [places H]. discriminate H.
Qed.

(** ** Fetch orchestrator *)

Module FetchFacts.
Import Fetch.

(** *** The deduplication key *)

Lemma str_int_head n : ∃ c s, str_int n = String c s ∧ numeral_char c = true.
Proof.
  unfold str_int, Z.to_int. destruct n as [|p|p]; simpl.
  - by eexists _, _.
  - unfold NilZero.string_of_uint.
    destruct (Pos.to_uint p); simpl; by eexists _, _.
  - by eexists _, _.
Qed.

Lemma to_int_not_nil n :
  Z.to_int n ≠ Decimal.Pos Decimal.Nil ∧ Z.to_int n ≠ Decimal.Neg Decimal.Nil.
Proof.
  destruct n as [|p|p]; simpl; split; try discriminate;
    intros [= H]; by apply Unsigned.to_uint_nonnil in H.
Qed.

Lemma str_int_inj a b : str_int a = str_int b → a = b.
Proof.
  intros H. apply (f_equal NilZero.int_of_string) in H. unfold str_int in H.
  destruct (to_int_not_nil a) as [Ha1 Ha2], (to_int_not_nil b) as [Hb1 Hb2].
  rewrite !NilZero.isi in H by done. injection H as H.
  apply (f_equal Z.of_int) in H. by rewrite !DecimalZ.of_to in H.
Qed.

Lemma tag_numeral_inj t1 : ∀ t2 c1 s1 c2 s2,
  plain_tag t1 = true → plain_tag t2 = true →
  numeral_char c1 = true → numeral_char c2 = true →
  t1 +:+ String c1 s1 = t2 +:+ String c2 s2 → t1 = t2 ∧ s1 = s2 ∧ c1 = c2.
Proof.
  induction t1 as [|a t1 IH]; intros [|b t2] c1 s1 c2 s2 H1 H2 Hc1 Hc2; simpl in *.
  - by intros [= -> ->].
  - intros [= -> _]. rewrite Hc1 in H2. done.
  - intros [= -> _]. rewrite Hc2 in H1. done.
  - intros [= -> H]. apply andb_true_iff in H1 as [_ H1], H2 as [_ H2].
    destruct (IH _ _ _ _ _ H1 H2 Hc1 Hc2 H) as (-> & -> & ->). done.
Qed.

Lemma element_id_inj e1 e2 :
  plain_tag (e_type e1) = true → plain_tag (e_type e2) = true →
  element_id e1 = element_id e2 → identity e1 = identity e2.
Proof.
  unfold element_id, identity. intros H1 H2 H.
  destruct (str_int_head (e_id e1)) as (c1 & s1 & E1 & Hc1).
  destruct (str_int_head (e_id e2)) as (c2 & s2 & E2 & Hc2).
  rewrite E1, E2 in H.
  destruct (tag_numeral_inj _ _ _ _ _ _ H1 H2 Hc1 Hc2 H) as (Ht & -> & ->).
  rewrite <- E2 in E1. apply str_int_inj in E1. by rewrite Ht, E1.
Qed.

Lemma identity_element_id e1 e2 :
  identity e1 = identity e2 → element_id e1 = element_id e2.
Proof. unfold identity, element_id. by intros [= -> ->]. Qed.

(** *** The deduplication loop *)

Lemma dedup_loop_from all_elements : ∀ seen_ids unique_elements,
  dedup_loop all_elements seen_ids unique_elements
  = unique_elements ++ dedup_from seen_ids all_elements.
Proof.
  induction all_elements as [|e l IH]; intros seen acc; simpl.
  - by rewrite app_nil_r.
  - case_decide; rewrite IH; [done|]. by rewrite <- app_assoc.
Qed.

Lemma deduplicate_from all_elements :
  deduplicate all_elements = dedup_from ∅ all_elements.
Proof. unfold deduplicate. by rewrite dedup_loop_from. Qed.

Lemma dedup_from_elem l : ∀ seen e,
  e ∈ dedup_from seen l → e ∈ l ∧ element_id e ∉ seen.
Proof.
  induction l as [|x l IH]; intros seen e; simpl; [by intros ?%elem_of_nil|].
  case_decide as Hx.
  - intros [? ?]%IH. split; [by right|done].
  - intros [->|[? ?]%IH]%elem_of_cons.
    + split; [by left|done].
    + split; [by right|set_solver].
Qed.

Lemma dedup_from_NoDup l : ∀ seen, NoDup (element_id <$> dedup_from seen l).
Proof.
  induction l as [|x l IH]; intros seen; simpl; [constructor|].
  case_decide as Hx; [apply IH|]. rewrite fmap_cons. constructor; [|apply IH].
  intros (e & He & [_ Hin]%dedup_from_elem)%list_elem_of_fmap. set_solver.
Qed.

Lemma dedup_from_sublist l : ∀ seen, dedup_from seen l `sublist_of` l.
Proof.
  induction l as [|x l IH]; intros seen; simpl; [done|].
  case_decide; [by apply sublist_cons|by apply sublist_skip].
Qed.

Lemma dedup_from_fixed l : ∀ seen,
  NoDup (element_id <$> l) → (∀ e, e ∈ l → element_id e ∉ seen) →
  dedup_from seen l = l.
Proof.
  induction l as [|x l IH]; intros seen Hnd Hseen; simpl; [done|].
  rewrite fmap_cons in Hnd. apply NoDup_cons in Hnd as [Hx Hnd].
  rewrite decide_False by (apply Hseen; by left). f_equal.
  apply IH; [done|]. intros e He.
  assert (element_id e ≠ element_id x).
  { intros Heq. apply Hx. rewrite <- Heq. by apply list_elem_of_fmap_2. }
  assert (element_id e ∉ seen) by (apply Hseen; by right). set_solver.
Qed.

(** Of the elements with a given id, the loop keeps the first, unless the
    id has been seen before. *)
Lemma dedup_from_filter k l : ∀ seen,
  filter (λ e, element_id e = k) (dedup_from seen l)
  = if decide (k ∈ seen) then [] else take 1 (filter (λ e, element_id e = k) l).
Proof.
  induction l as [|x l IH]; intros seen; simpl.
  - by case_decide.
  - destruct (decide (element_id x ∈ seen)) as [Hx|Hx].
    + rewrite IH. case_decide as Hk; [done|].
      rewrite filter_cons_False; [done|]. congruence.
    + destruct (decide (element_id x = k)) as [Hxk|Hxk].
      * rewrite !filter_cons_True by done. rewrite IH.
        rewrite decide_True by set_solver. subst k. by rewrite decide_False.
      * rewrite !filter_cons_False by done. rewrite IH.
        destruct (decide (k ∈ seen)).
        -- rewrite decide_True; [done|set_solver].
        -- rewrite decide_False; [done|set_solver].
Qed.


Lemma filter_ext_elem {A} (P Q : A → Prop) `{∀ x, Decision (P x)}
    `{∀ x, Decision (Q x)} (l : list A) :
  (∀ x, x ∈ l → P x ↔ Q x) → filter P l = filter Q l.
Proof.
  induction l as [|x l IH]; intros HPQ; [done|].
  rewrite !filter_cons. rewrite IH by (intros; apply HPQ; by right).
  destruct (decide (P x)) as [HP|HP], (decide (Q x)) as [HQ|HQ]; try done;
    exfalso; apply (HPQ x (list_elem_of_here _ _)) in HP || apply HP;
    [done|by apply (HPQ x (list_elem_of_here _ _))].
Qed.

(** *** The tile loop *)

Lemma query_overpass_failed q w :
  forallb outcome_failed (script w) = true →
  outcome_failed (query_overpass q w).1 = true ∧
  forallb outcome_failed (script (query_overpass q w).2) = true.
Proof.
  unfold query_overpass. simpl. destruct (script w) as [|o rest]; simpl; [done|].
  by intros [? ?]%andb_true_iff.
Qed.

Lemma tile_loop_all_failed mk tiles : ∀ i all_elements successful_tiles w,
  forallb outcome_failed (script w) = true →
  (tile_loop mk i tiles all_elements successful_tiles w).1
  = (all_elements, successful_tiles).
Proof.
  induction tiles as [|tile tiles IH]; intros i all succ w Hw; [done|].
  cbn [tile_loop].
  destruct (query_overpass_failed (mk tile) w Hw) as [Hfail Hrest].
  destruct (query_overpass (mk tile) w) as [result w1]. simpl in Hfail, Hrest.
  destruct result as [[[els|] gen]|]; [done| |]; apply IH; exact Hrest.
Qed.

Lemma tile_loop_all_empty mk tiles : ∀ i all_elements successful_tiles w rest,
  script w = replicate (length tiles) (Some empty_response) ++ rest →
  (tile_loop mk i tiles all_elements successful_tiles w).1
  = (all_elements, (successful_tiles + length tiles)%nat).
Proof.
  induction tiles as [|tile tiles IH]; intros i all succ w rest Hw.
  - simpl. by rewrite Nat.add_0_r.
  - cbn [tile_loop]. unfold query_overpass. rewrite Hw. simpl.
    rewrite app_nil_r. erewrite IH; [|reflexivity]. f_equal. lia.
Qed.

(** *** The single-query path *)

(** A failed request on the single-query path comes back as None, which
    the caller's test takes for a failure. *)
Lemma single_query_failure search_term bbox place_types exact_match timeout
    broad_search w :
  (calculate_bbox_area bbox <= 1)%Q →
  head (script w) = Some None ∨ script w = [] →
  let result := (query_overpass_with_chunking search_term bbox place_types
                   exact_match timeout broad_search w).1 in
  result = None ∧ fetch_succeeded result = false.
Proof.
  intros Harea%Qle_bool_iff Hw. cbv zeta.
  unfold query_overpass_with_chunking. rewrite Harea.
  unfold query_overpass. simpl. by destruct Hw as [-> | ->].
Qed.

(** *** Examples *)

Example deduplicate_example :
  e_id <$> deduplicate [lotus; way_with_center; lotus; way_with_empty_center;
                        way_with_center]
  = [1; 10; 9].
Proof. vm_compute. reflexivity. Qed.

(** A type tag that ends in a digit can run into the id: the key does not
    tell these two records apart. *)
Example element_id_collision :
  element_id {| e_type := "node1"; e_id := 2; e_lat := None; e_lon := None;
                e_center := None; e_tags := None |}
  = element_id {| e_type := "node"; e_id := 12; e_lat := None; e_lon := None;
                  e_center := None; e_tags := None |}.
Proof. reflexivity. Qed.

End FetchFacts.

Import FetchFacts.

(** C9: deduplicating twice is deduplicating once; what is kept is kept in
    its original order; no two kept records have the same (type, id); and
    for records whose type tags are plain ("node", "way", "relation": no
    digit, no sign), the records kept for a (type, id) are exactly the first
    one of the input, and an input of pairwise distinct (type, id) is kept
    whole. *)
Theorem C9_deduplicate (all_elements : list element) :
  Fetch.deduplicate (Fetch.deduplicate all_elements)
    = Fetch.deduplicate all_elements ∧
  Fetch.deduplicate all_elements `sublist_of` all_elements ∧
  NoDup (identity <$> Fetch.deduplicate all_elements) ∧
  (forallb (λ e, plain_tag (e_type e)) all_elements = true →
   ∀ e, e ∈ all_elements →
     filter (λ e', identity e' = identity e) (Fetch.deduplicate all_elements)
     = take 1 (filter (λ e', identity e' = identity e) all_elements)) ∧
  (forallb (λ e, plain_tag (e_type e)) all_elements = true →
   NoDup (identity <$> all_elements) →
   Fetch.deduplicate all_elements = all_elements).
Proof.
  rewrite !deduplicate_from. split; [|split; [|split; [|split]]].
  - apply dedup_from_fixed; [apply dedup_from_NoDup|]. set_solver.
  - apply dedup_from_sublist.
  - pose proof (dedup_from_NoDup all_elements ∅) as Hnd.
    eapply (NoDup_fmap_1 (λ p : string * Z, p.1 +:+ str_int p.2)).
    by rewrite <- list_fmap_compose.
  - intros Hplain e He. rewrite forallb_forall in Hplain.
    pose proof (dedup_from_filter (Fetch.element_id e) all_elements ∅) as Hf.
    rewrite decide_False in Hf by set_solver. rewrite <- !deduplicate_from in *.
    assert (∀ l : list element, (∀ x, x ∈ l → x ∈ all_elements) →
              filter (λ e', identity e' = identity e) l
              = filter (λ e', Fetch.element_id e' = Fetch.element_id e) l) as Hext.
    { intros l Hl. apply filter_ext_elem. intros x Hx. split.
      - apply identity_element_id.
      - apply element_id_inj; apply Hplain, list_elem_of_In; auto. }
    rewrite !Hext; [done|done|].
    intros x Hx. rewrite deduplicate_from in Hx.
    by apply dedup_from_elem in Hx as [? _].
  - intros Hplain Hnd. rewrite forallb_forall in Hplain.
    apply dedup_from_fixed; [|set_solver].
    apply NoDup_fmap_2_strong; [|by apply NoDup_fmap_1 in Hnd].
    intros x y Hx Hy Hxy.
    assert (identity x = identity y) as Hid
      by (apply element_id_inj; try apply Hplain, list_elem_of_In; done).
    rewrite NoDup_alt in Hnd.
    apply list_elem_of_lookup in Hx as [i Hi], Hy as [j Hj].
    assert (i = j) as ->; [|congruence].
    apply (Hnd i j (identity x)); rewrite list_lookup_fmap.
    + by rewrite Hi.
    + by rewrite Hj, Hid.
Qed.

Lemma C9_deduplicate_witness :
  filter (λ e', identity e' = identity lotus)
         (Fetch.deduplicate [lotus; way_with_center; lotus])
  = take 1 (filter (λ e', identity e' = identity lotus)
                   [lotus; way_with_center; lotus]) ∧
  Fetch.deduplicate [lotus; way_with_center] = [lotus; way_with_center].
Proof.
  split.
  - apply (proj1 (proj2 (proj2 (proj2
             (C9_deduplicate [lotus; way_with_center; lotus]))))).
    + reflexivity.
    + by left.
  - apply (proj2 (proj2 (proj2 (proj2
             (C9_deduplicate [lotus; way_with_center]))))).
    + reflexivity.
    + compute_done.
Defined.

(** C2, as the code has it: the region (13.5, 100.1, 14.2, 100.9) has area
    0.56, which is at most 1.0, so one query is sent for the whole region;
    the single-query path returns the records of the response as they are,
    without deduplication, and the two equal records normalise to two
    places, both named "Lotus Mart". *)
Theorem C2_single_query_keeps_duplicates (search_term : string)
    (place_types : option (list string)) (exact_match : bool) (timeout : Z) :
  (calculate_bbox_area bangkok == 56 # 100)%Q ∧
  split_bbox_into_tiles bangkok DEFAULT_MAX_TILES = [bangkok] ∧
  let run := Fetch.investigate search_term bangkok place_types exact_match
               timeout lotus_net in
  Fetch.sent run.2
    = [Fetch.generate_overpass_query search_term bangkok place_types
         exact_match timeout] ∧
  Fetch.console run.2 = [Fetch.SingleQuery] ∧
  Fetch.sleeps run.2 = 0%nat ∧
  run.1 = Ok [lotus_place; lotus_place] ∧
  p_name lotus_place = "Lotus Mart".
Proof. repeat split. Qed.

(** C2 as claimed fails: the normalised output of the scenario is not a
    single place; it has two. *)
Lemma C2_counterexample :
  let places := (Fetch.investigate "Lotus" bangkok None false 60 lotus_net).1 in
  length <$> places = Ok 2%nat ∧ ¬ ∃ p, places = Ok [p].
Proof. split; [reflexivity|]. intros [p H]. discriminate H. Qed.

(** C3, on the tiled path: when every tile request fails, the orchestrator
    returns the object it returns when every tile answers with no element,
    an empty list of elements under the generator name, and the caller's
    test takes it for a success: main goes on with no places ("No places
    found"), not with "Query failed". *)
Theorem C3_all_tiles_failed (search_term : string) (bbox : bbox)
    (place_types : option (list string)) (exact_match : bool) (timeout : Z)
    (broad_search : bool) (w_failed w_empty : Fetch.net) :
  (1 < calculate_bbox_area bbox)%Q →
  forallb outcome_failed (Fetch.script w_failed) = true →
  Fetch.script w_empty
    = replicate (length (split_bbox_into_tiles bbox DEFAULT_MAX_TILES))
        (Some empty_response) →
  let fetch := Fetch.query_overpass_with_chunking search_term bbox place_types
                 exact_match timeout broad_search in
  (fetch w_failed).1
    = Some {| Fetch.r_elements := Some [];
              Fetch.r_generator := Some "place_detective_chunked" |} ∧
  (fetch w_failed).1 = (fetch w_empty).1 ∧
  Fetch.fetch_succeeded (fetch w_failed).1 = true ∧
  (Fetch.investigate search_term bbox place_types exact_match timeout w_failed).1
    = Ok [].
Proof.
  intros Harea Hfailed Hempty.
  assert (Qle_bool (calculate_bbox_area bbox) 1 = false) as Hbig.
  { destruct (Qle_bool _ 1) eqn:E; [|done].
    apply Qle_bool_iff in E. by apply Qlt_not_le in Harea. }
  assert (∀ broad w, forallb outcome_failed (Fetch.script w) = true →
    (Fetch.query_overpass_with_chunking search_term bbox place_types
       exact_match timeout broad w).1
    = Some {| Fetch.r_elements := Some [];
              Fetch.r_generator := Some "place_detective_chunked" |}) as Hrun.
  { intros broad w Hw. unfold Fetch.query_overpass_with_chunking. rewrite Hbig.
    match goal with |- context [Fetch.tile_loop ?mk ?i ?ts ?a ?s ?w'] =>
      pose proof (tile_loop_all_failed mk ts i a s w' Hw) as Hloop;
      destruct (Fetch.tile_loop mk i ts a s w') as [[all succ] w2] end.
    simpl in Hloop. injection Hloop as -> ->. done. }
  cbv zeta. rewrite (Hrun broad_search w_failed Hfailed).
  split; [done|]. split; [|split; [done|]].
  - unfold Fetch.query_overpass_with_chunking. rewrite Hbig.
    match goal with |- context [Fetch.tile_loop ?mk ?i ?ts ?a ?s ?w'] =>
      pose proof (tile_loop_all_empty mk ts i a s w' [] ) as Hloop;
      destruct (Fetch.tile_loop mk i ts a s w') as [[all succ] w2] end.
    simpl in Hloop. rewrite app_nil_r in Hloop.
    specialize (Hloop Hempty). injection Hloop as -> ->. done.
  - unfold Fetch.investigate.
    pose proof (Hrun false w_failed Hfailed) as Hr.
    destruct (Fetch.query_overpass_with_chunking _ _ _ _ _ _ _) as [r w2].
    simpl in Hr. by rewrite Hr.
Qed.

Lemma C3_all_tiles_failed_witness :
  (Fetch.query_overpass_with_chunking "Lotus" thailand None false 60 false
     (fresh_net (replicate 16 None))).1
  = (Fetch.query_overpass_with_chunking "Lotus" thailand None false 60 false
       (fresh_net (replicate 16 (Some empty_response)))).1.
Proof.
  apply (C3_all_tiles_failed "Lotus" thailand None false 60 false
           (fresh_net (replicate 16 None))
           (fresh_net (replicate 16 (Some empty_response)))).
  - reflexivity.
  - reflexivity.
  - reflexivity.
Defined.

(** ** Similarity engine *)

Module SimilarityFacts.
Import Similarity.

Lemma length_lower s : String.length (lower s) = String.length s.
Proof. induction s as [|c s IH]; simpl; [done|]. by rewrite IH. Qed.

Lemma len_lower s : len (lower s) = len s.
Proof. unfold len. by rewrite length_lower. Qed.


(** *** The instance *)













(** *** The stable sort *)

Section Sorting.

Lemma insert_desc_perm x l : insert_desc x l ≡ₚ x :: l.
Proof.
  induction l as [|y l IH]; simpl; [done|].
  case_match; [|done]. rewrite IH. apply Permutation_swap.
Qed.

Lemma sorted_desc_perm l : sorted_desc l ≡ₚ l.
Proof.
  induction l as [|x l IH]; simpl; [done|].
  by rewrite insert_desc_perm, IH.
Qed.





End Sorting.

(** *** The loop over the candidates *)

Section Loop.
Context {F : Fuzz}.

Lemma consider_retained target threshold name :
  consider target threshold name
  = if decide (retained target threshold name)
    then [(name, score target name)] else [].
Proof.
  unfold consider, retained, too_short, too_different, score.
  rewrite !len_lower.
  destruct (len name <? _) eqn:E1.
  { apply Z.ltb_lt in E1. rewrite decide_False; [done|]. lia. }
  apply Z.ltb_ge in E1.
  destruct (Z.abs _ >? _) eqn:E2.
  { apply Z.gtb_lt in E2. rewrite decide_False; [done|]. lia. }
  rewrite Z.gtb_ltb in E2. apply Z.ltb_ge in E2.
  destruct (_ >=? threshold) eqn:E3.
  - rewrite Z.geb_leb in E3. apply Z.leb_le in E3. by rewrite decide_True.
  - rewrite Z.geb_leb in E3. apply Z.leb_gt in E3.
    rewrite decide_False; [done|]. lia.
Qed.

Lemma loop_retained target threshold all_names :
  (name ← all_names; consider target threshold name)
  = (λ name, (name, score target name))
      <$> filter (retained target threshold) all_names.
Proof.
  induction all_names as [|name l IH]; [done|].
  rewrite bind_cons, IH, consider_retained, filter_cons.
  by case_decide.
Qed.

End Loop.

(** *** Example *)

(** Equal scores keep the order of the candidate list; "xy" is too short
    and the last candidate too long to be scored. *)
Example find_similar_names_example :
  @find_similar_names lcs_fuzz "Lotus Mart"
    ["Lotus"; "lotus mart"; "Lotu Mart"; "Mart Lotus"; "xy";
     "Lotus Mart Express Bangkok Branch Number Two"; "LOTUS MART"] 60
  = [("lotus mart", 100); ("Mart Lotus", 100); ("LOTUS MART", 100);
     ("Lotu Mart", 95); ("Lotus", 67)].
Proof. vm_compute. reflexivity. Qed.

End SimilarityFacts.

Import SimilarityFacts.




(** ** Findings analyser *)

Module DictFacts.

Lemma get_Some_keys {V} key (d : Dict.t V) :
  is_Some (Dict.get key d) ↔ key ∈ Dict.keys d.
Proof.
  unfold Dict.keys. induction d as [|[k v] d IH]; simpl.
  - split; [by intros [? ?]|by intros ?%elem_of_nil].
  - rewrite elem_of_cons. case_decide; [|rewrite IH]; naive_solver.
Qed.

Lemma contains_keys {V} key (d : Dict.t V) :
  Dict.contains key d = bool_decide (key ∈ Dict.keys d).
Proof. unfold Dict.contains. apply bool_decide_ext, get_Some_keys. Qed.

Lemma get_set_eq {V} key (v : V) d : Dict.get key (Dict.set key v d) = Some v.
Proof.
  induction d as [|[k v'] d IH]; simpl; [by rewrite decide_True|].
  case_decide; simpl; [by rewrite decide_True|by rewrite decide_False].
Qed.

Lemma get_set_ne {V} key key' (v : V) d :
  key ≠ key' → Dict.get key' (Dict.set key v d) = Dict.get key' d.
Proof.
  intros Hne. induction d as [|[k v'] d IH]; simpl; [by rewrite decide_False|].
  case_decide; simpl; [|by rewrite IH].
  repeat case_decide; congruence.
Qed.

Lemma keys_set {V} key (v : V) d :
  Dict.keys (Dict.set key v d)
  = if decide (key ∈ Dict.keys d) then Dict.keys d else Dict.keys d ++ [key].
Proof.
  unfold Dict.keys. induction d as [|[k v'] d IH].
  - cbn [Dict.set fmap list_fmap fst]. rewrite decide_False; [done|].
    by intros ?%elem_of_nil.
  - cbn [Dict.set]. destruct (decide (k = key)) as [->|Hk]; rewrite !fmap_cons.
    + rewrite decide_True; [done|]. by left.
    + rewrite IH. cbn [fst]. destruct (decide (key ∈ d.*1)).
      * rewrite decide_True; [done|]. by right.
      * rewrite decide_False; [done|]. by intros [?|?]%elem_of_cons.
Qed.

End DictFacts.

Module AnalyzerFacts.
Import Analyzer DictFacts.

(** *** Names in discovery order *)

Lemma elem_of_discovery_order n names :
  n ∈ discovery_order names ↔ n ∈ names.
Proof.
  induction names as [|m names IH]; simpl; [done|].
  rewrite !elem_of_cons, list_elem_of_filter, IH.
  destruct (decide (n = m)); naive_solver.
Qed.

Lemma NoDup_discovery_order names : NoDup (discovery_order names).
Proof.
  induction names as [|m names IH]; simpl; constructor.
  - rewrite list_elem_of_filter. naive_solver.
  - by apply NoDup_filter.
Qed.

Lemma discovery_order_snoc names n :
  discovery_order (names ++ [n])
  = if decide (n ∈ names) then discovery_order names
    else discovery_order names ++ [n].
Proof.
  induction names as [|m names IH].
  - by destruct (decide (n ∈ [])) as [?%elem_of_nil|].
  - cbn [app discovery_order]. rewrite IH.
    destruct (decide (n ∈ names)) as [Hin|Hin].
    + rewrite decide_True; [done|]. by right.
    + rewrite filter_app, filter_cons, filter_nil.
      repeat case_decide; simplify_eq; try done.
      all: try (by rewrite app_nil_r); set_solver.
Qed.

(** Every name with every later one, by position. *)
Lemma elem_of_pairs_in_order names n1 n2 :
  (n1, n2) ∈ pairs_in_order names ↔
  ∃ i j, (i < j)%nat ∧ names !! i = Some n1 ∧ names !! j = Some n2.
Proof.
  induction names as [|m names IH]; simpl.
  - split; [by intros ?%elem_of_nil|]. by intros (i & j & _ & ? & _).
  - rewrite elem_of_app, list_elem_of_fmap, IH. split.
    + intros [(n & [= -> ->] & Hn)|(i & j & Hij & Hi & Hj)].
      * apply list_elem_of_lookup in Hn as [j Hj].
        exists 0%nat, (S j). split; [lia|done].
      * exists (S i), (S j). split; [lia|done].
    + intros (i & j & Hij & Hi & Hj). destruct j as [|j]; [lia|].
      destruct i as [|i]; simpl in *.
      * left. exists n2. split; [congruence|]. by eapply list_elem_of_lookup_2.
      * right. exists i, j. split; [lia|done].
Qed.


(** *** The grouping loop *)

Lemma group_of_snoc seen p n :
  group_of (seen ++ [p]) n
  = if decide (p_name p = n) then group_of seen n ++ [p] else group_of seen n.
Proof.
  unfold group_of. rewrite filter_app, filter_cons, filter_nil.
  case_decide; [done|]. by rewrite app_nil_r.
Qed.

Lemma group_of_absent seen n : n ∉ p_name <$> seen → group_of seen n = [].
Proof.
  unfold group_of. induction seen as [|p seen IH]; [done|].
  rewrite fmap_cons, not_elem_of_cons. intros [Hp Hn].
  rewrite filter_cons_False by done. by apply IH.
Qed.

Lemma names_snoc (seen : list place) p :
  p_name <$> seen ++ [p] = (p_name <$> seen) ++ [p_name p].
Proof. by rewrite fmap_app. Qed.

Lemma groups_of_step seen g p :
  groups_of seen g →
  let name := p_name p in
  let g1 := if Dict.contains name g then g else Dict.set name [] g in
  ∃ group, Dict.item name g1 = Ok group ∧
           groups_of (seen ++ [p]) (Dict.set name (group ++ [p]) g1).
Proof.
  intros [Hkeys Hget]. cbv zeta. rewrite contains_keys.
  assert (p_name p ∈ Dict.keys g ↔ p_name p ∈ p_name <$> seen) as Hin
    by (by rewrite Hkeys, elem_of_discovery_order).
  case_bool_decide as Hknown.
  - exists (group_of seen (p_name p)). unfold Dict.item.
    rewrite (Hget _ Hknown). split; [done|]. split.
    + rewrite keys_set, decide_True, names_snoc, discovery_order_snoc by done.
      rewrite decide_True by by apply Hin. done.
    + intros n. rewrite keys_set, decide_True by done. intros Hn.
      rewrite group_of_snoc. case_decide as Hpn.
      * subst n. by rewrite get_set_eq.
      * rewrite get_set_ne by done. by apply Hget.
  - exists []. unfold Dict.item. rewrite get_set_eq. split; [done|].
    assert (Dict.keys (Dict.set (p_name p) [] g) = Dict.keys g ++ [p_name p])
      as Hk1 by (by rewrite keys_set, decide_False).
    assert (Dict.keys (Dict.set (p_name p) ([] ++ [p]) (Dict.set (p_name p) [] g))
            = Dict.keys g ++ [p_name p]) as Hk2.
    { rewrite keys_set, Hk1, decide_True; [done|]. set_solver. }
    split.
    + rewrite Hk2, names_snoc, discovery_order_snoc.
      rewrite decide_False by (by rewrite <- Hin). by rewrite Hkeys.
    + intros n. rewrite Hk2, group_of_snoc. intros Hn. case_decide as Hpn.
      * subst n. rewrite get_set_eq, group_of_absent; [done|]. by rewrite <- Hin.
      * rewrite !get_set_ne by done. apply Hget. set_solver.
Qed.

Lemma group_loop_spec places : ∀ seen g,
  groups_of seen g →
  ∃ g', group_loop places g = Ok g' ∧ groups_of (seen ++ places) g'.
Proof.
  induction places as [|p places IH]; intros seen g Hg.
  - exists g. by rewrite app_nil_r.
  - destruct (groups_of_step seen g p Hg) as (group & Hitem & Hg').
    cbv zeta in Hitem, Hg'. cbn [group_loop]. rewrite Hitem.
    destruct (IH _ _ Hg') as (g' & Hloop & Hfinal).
    exists g'. rewrite <- app_assoc in Hfinal. split; [|done].
    exact Hloop.
Qed.

Lemma groups_of_nil : groups_of [] [].
Proof. split; [done|]. by intros n ?%elem_of_nil. Qed.

(** *** The comparison loops *)

Section Loops.
Context {F : Fuzz} (places : list place) (g : Dict.t (list place)).
Hypothesis Hg : groups_of places g.

Lemma inner_loop_spec name1 rest :
  name1 ∈ Dict.keys g → (∀ n, n ∈ rest → n ∈ Dict.keys g) →
  inner_loop g name1 rest = Ok (omap (variation_of places) (pair name1 <$> rest)).
Proof.
  destruct Hg as [_ Hget]. intros H1. induction rest as [|name2 rest IH]; intros Hrest.
  - done.
  - cbn [inner_loop]. rewrite IH by (intros; apply Hrest; by right).
    rewrite fmap_cons. cbn [omap list_omap]. unfold variation_of at 2. cbn [fst snd].
    unfold Dict.item. rewrite (Hget _ H1), (Hget name2) by (apply Hrest; by left).
    rewrite Z.gtb_ltb. by destruct (80 <? _).
Qed.

Lemma outer_loop_spec todo : ∀ before,
  Dict.keys g = before ++ todo →
  outer_loop g (Dict.keys g) (length before) todo
  = Ok (omap (variation_of places) (pairs_in_order todo)).
Proof.
  induction todo as [|name1 todo IH]; intros before Hnames; [done|].
  cbn [outer_loop pairs_in_order]. rewrite omap_app.
  assert (drop (S (length before)) (Dict.keys g) = todo) as ->.
  { rewrite Hnames, cons_middle, app_assoc.
    apply drop_app_length'. rewrite length_app. simpl. lia. }
  rewrite inner_loop_spec.
  - specialize (IH (before ++ [name1])). rewrite length_app in IH. simpl in IH.
    rewrite Nat.add_1_r in IH. rewrite IH; [done|].
    by rewrite <- app_assoc.
  - rewrite Hnames. set_solver.
  - intros n Hn. rewrite Hnames. set_solver.
Qed.

End Loops.

End AnalyzerFacts.

Import AnalyzerFacts.

(** C8: the analyser returns, and its name variations are those of the
    specification: the distinct names are taken in the order they are first
    met; every name is compared with every later one (outer loop over the
    names, inner loop over the names after it), by [ratio] alone on the
    lowercased names; a pair is reported when the score is above 80, with
    the score and with all the places of each of the two names.  The pairs
    compared are the pairs of positions [i < j] in the list of distinct
    names, so two different names are compared once. *)
Theorem C8_name_variations (F : Fuzz) (places : list place) :
  let names := Analyzer.discovery_order (p_name <$> places) in
  (∃ a, Analyzer.analyze_findings places = Ok a ∧
        Analyzer.name_variations a = Analyzer.name_variations_spec places) ∧
  NoDup names ∧
  (∀ n, n ∈ names ↔ n ∈ p_name <$> places) ∧
  (∀ n1 n2, (n1, n2) ∈ Analyzer.pairs_in_order names ↔
            ∃ i j, (i < j)%nat ∧ names !! i = Some n1 ∧ names !! j = Some n2).
Proof.
  cbv zeta. split; [|split; [|split]].
  - destruct (group_loop_spec places [] [] groups_of_nil) as (g & Hloop & Hg).
    simpl in Hg. unfold Analyzer.analyze_findings. rewrite Hloop.
    pose proof (outer_loop_spec places g Hg (Dict.keys g) []) as Houter.
    simpl in Houter. specialize (Houter eq_refl).
    eexists. cbn [mbind result_bind]. rewrite Houter. split; [reflexivity|].
    cbn [Analyzer.name_variations]. unfold Analyzer.name_variations_spec.
    destruct Hg as [-> _]. done.
  - apply NoDup_discovery_order.
  - intros n. apply elem_of_discovery_order.
  - intros n1 n2. apply elem_of_pairs_in_order.
Qed.

(** * Further properties *)

(** ** Region geometry: the shape of a tile plan *)

Module TilePlanFacts.






(** Any grid size from 2 on whose square reaches [max_tiles] bounds the
    computed one. *)
Lemma compute_grid_size_le area max_tiles k :
  2 ≤ k → max_tiles ≤ k * k → compute_grid_size area max_tiles ≤ k.
Proof.
  intros Hk Hcap.
  destruct (GeometryFacts.compute_grid_size_smallest area max_tiles)
    as (Hg & _ & Hmin).
  destruct (decide (compute_grid_size area max_tiles ≤ k)) as [|Hgt]; [done|].
  destruct (Hmin k); [lia|]. by left.
Qed.

End TilePlanFacts.

Import TilePlanFacts.






(** X4: the plan never has more tiles than a square [k * k], [k >= 2],
    that reaches [max_tiles]; with the default of 16 it has at most 16. *)
Theorem tile_count_bound (b : bbox) (max_tiles k : Z) :
  2 ≤ k → max_tiles ≤ k * k →
  Z.of_nat (length (split_bbox_into_tiles b max_tiles)) ≤ k * k.
Proof.
  intros Hk Hcap.
  destruct (Qlt_le_dec 1 (calculate_bbox_area b)) as [Harea|Harea].
  - rewrite (split_large _ _ Harea). cbv zeta.
    pose proof (GeometryFacts.compute_grid_size_smallest
                  (calculate_bbox_area b) max_tiles) as (Hg & _).
    pose proof (compute_grid_size_le (calculate_bbox_area b) max_tiles k Hk Hcap).
    rewrite length_grid, Z2Nat.id by nia. nia.
  - rewrite (split_small _ _ Harea). simpl. nia.
Qed.

Lemma tile_count_bound_witness :
  Z.of_nat (length (split_bbox_into_tiles thailand DEFAULT_MAX_TILES)) ≤ 16.
Proof. apply (tile_count_bound thailand DEFAULT_MAX_TILES 4); vm_compute; discriminate. Defined.


(** ** Fetch orchestrator: traffic and result *)

Module OrchestratorFacts.
Import Fetch.

Lemma print_fields m w :
  script (print m w).2 = script w ∧ sent (print m w).2 = sent w ∧
  sleeps (print m w).2 = sleeps w.
Proof. done. Qed.

Lemma drop_tail_S {A} (n : nat) (l : list A) : drop n (tail l) = drop (S n) l.
Proof. destruct l; [|done]. simpl. by destruct n. Qed.

(** One round of the tile loop. *)
Lemma tile_loop_cons mk i tile tiles all_elements successful_tiles w :
  let o := default None (head (script w)) in
  ∃ w', script w' = tail (script w) ∧ sent w' = sent w ++ [mk tile] ∧
        sleeps w' = S (sleeps w) ∧
        tile_loop mk i (tile :: tiles) all_elements successful_tiles w
        = tile_loop mk (S i) tiles (all_elements ++ tile_elements o)
            (successful_tiles + if outcome_failed o then 0 else 1)%nat w'.
Proof.
  cbv zeta. cbn [tile_loop]. unfold query_overpass.
  destruct (default None (head (script w))) as [[[els|] gen]|]; simpl;
    rewrite ?app_nil_r, ?Nat.add_0_r, ?Nat.add_1_r;
    eexists {| script := _; sent := _; sleeps := _; console := _ |};
    (split; [|split; [|split]]); reflexivity.
Qed.

(** The tile loop in closed form: what it collects and what it leaves of
    the world. *)
Lemma tile_loop_spec mk tiles : ∀ i all_elements successful_tiles w,
  let outcomes := next_outcomes (length tiles) (script w) in
  let run := tile_loop mk i tiles all_elements successful_tiles w in
  run.1 = (all_elements ++ concat (tile_elements <$> outcomes),
           (successful_tiles
            + length (filter (λ o, outcome_failed o = false) outcomes))%nat) ∧
  script run.2 = drop (length tiles) (script w) ∧
  sent run.2 = sent w ++ (mk <$> tiles) ∧
  sleeps run.2 = (sleeps w + length tiles)%nat.
Proof.
  induction tiles as [|tile tiles IH]; intros i all succ w.
  - cbn. by rewrite !app_nil_r, !Nat.add_0_r.
  - destruct (tile_loop_cons mk i tile tiles all succ w)
      as (w' & Hscript & Hsent & Hsleeps & ->).
    destruct (IH (S i) (all ++ tile_elements (default None (head (script w))))
                (succ + if outcome_failed (default None (head (script w)))
                        then 0 else 1)%nat w') as (H1 & H2 & H3 & H4).
    cbv zeta in *. rewrite H1, H2, H3, H4, Hscript, Hsent, Hsleeps.
    cbn [length next_outcomes]. rewrite fmap_cons, concat_cons, filter_cons.
    rewrite <- !app_assoc, drop_tail_S. cbn [app].
    repeat split; [|lia].
    f_equal. destruct (outcome_failed _); [rewrite decide_False by done|
                                           rewrite decide_True by done];
      simpl; lia.
Qed.


Lemma filter_all {A} (P : A → Prop) `{∀ x, Decision (P x)} (l : list A) :
  (∀ x, x ∈ l → P x) → filter P l = l.
Proof.
  induction l as [|x l IH]; intros HP; [done|].
  rewrite filter_cons_True by (apply HP; by left).
  f_equal. apply IH. intros y Hy. apply HP. by right.
Qed.

Lemma area_large bbox :
  (1 < calculate_bbox_area bbox)%Q → Qle_bool (calculate_bbox_area bbox) 1 = false.
Proof.
  intros Harea. destruct (Qle_bool _ 1) eqn:E; [|done].
  apply Qle_bool_iff in E. by apply Qlt_not_le in Harea.
Qed.

(** The deduplication loop keeps one element for each key, in the order
    the keys are first met. *)
Lemma dedup_from_keys l : ∀ seen,
  element_id <$> dedup_from seen l
  = filter (λ k, k ∉ seen) (Analyzer.discovery_order (element_id <$> l)).
Proof.
  induction l as [|x l IH]; intros seen; [done|].
  rewrite fmap_cons. cbn [dedup_from Analyzer.discovery_order].
  rewrite filter_cons, list_filter_filter. case_decide as Hx.
  - rewrite decide_False by tauto. rewrite IH.
    apply list_filter_iff. intros k. split; [|tauto].
    intros Hk. split; [done|]. by intros ->.
  - rewrite decide_True by done. rewrite fmap_cons, IH. f_equal.
    apply list_filter_iff. intros k. set_solver.
Qed.

(** One round of the tile loop, with what it prints. *)
Lemma tile_loop_cons_console mk i tile tiles all_elements successful_tiles w :
  let o := default None (head (script w)) in
  ∃ w', script w' = tail (script w) ∧
        console w' = console w ++ tile_messages i [o] ∧
        tile_loop mk i (tile :: tiles) all_elements successful_tiles w
        = tile_loop mk (S i) tiles (all_elements ++ tile_elements o)
            (successful_tiles + if outcome_failed o then 0 else 1)%nat w'.
Proof.
  cbv zeta. cbn [tile_loop]. unfold query_overpass.
  destruct (default None (head (script w))) as [[[els|] gen]|]; simpl;
    rewrite ?app_nil_r, ?Nat.add_0_r, ?Nat.add_1_r;
    eexists {| script := _; sent := _; sleeps := _; console := _ |};
    (split; [|split]); reflexivity.
Qed.

Lemma tile_loop_console mk tiles : ∀ i all_elements successful_tiles w,
  console (tile_loop mk i tiles all_elements successful_tiles w).2
  = console w ++ tile_messages i (next_outcomes (length tiles) (script w)).
Proof.
  induction tiles as [|tile tiles IH]; intros i all succ w.
  - simpl. by rewrite app_nil_r.
  - destruct (tile_loop_cons_console mk i tile tiles all succ w)
      as (w' & Hscript & Hconsole & ->).
    rewrite IH, Hscript, Hconsole, <- app_assoc. done.
Qed.

Lemma NoDup_identity_deduplicate all_elements :
  NoDup (identity <$> deduplicate all_elements).
Proof.
  rewrite FetchFacts.deduplicate_from.
  pose proof (FetchFacts.dedup_from_NoDup all_elements ∅) as Hnd.
  eapply (NoDup_fmap_1 (λ p : string * Z, p.1 +:+ str_int p.2)).
  by rewrite <- list_fmap_compose.
Qed.

Lemma tiled_fetch_value search_term bbox place_types exact_match timeout
    broad_search w :
  (1 < calculate_bbox_area bbox)%Q →
  (query_overpass_with_chunking search_term bbox place_types exact_match
     timeout broad_search w).1
  = Some {| r_elements :=
              Some (deduplicate
                      (concat (tile_elements
                                 <$> next_outcomes
                                       (length (split_bbox_into_tiles bbox
                                                  DEFAULT_MAX_TILES))
                                       (script w))));
            r_generator := Some "place_detective_chunked" |}.
Proof.
  intros Harea%area_large.
  unfold query_overpass_with_chunking. rewrite Harea.
  match goal with |- context [tile_loop ?mk ?i ?ts ?a ?s ?w'] =>
    destruct (tile_loop_spec mk ts i a s w') as (H1 & _);
    destruct (tile_loop mk i ts a s w') as [[all succ] w2] end.
  cbv zeta in H1. simpl in H1. injection H1 as -> _. done.
Qed.

End OrchestratorFacts.

Import OrchestratorFacts.

(** X5: on both paths the orchestrator sends one request for each tile of
    the plan, in plan order and with the caller's search settings, using up
    one scripted outcome for each; it pauses once after each tile of a split
    region and not at all on the single-query path. *)
Theorem fetch_traffic (search_term : string) (bbox : bbox)
    (place_types : option (list string)) (exact_match : bool) (timeout : Z)
    (broad_search : bool) (w : Fetch.net) :
  let tiles := split_bbox_into_tiles bbox DEFAULT_MAX_TILES in
  let run := Fetch.query_overpass_with_chunking search_term bbox place_types
               exact_match timeout broad_search w in
  Fetch.sent run.2
    = Fetch.sent w
      ++ (Fetch.plan search_term place_types exact_match timeout broad_search
            <$> tiles) ∧
  Fetch.script run.2 = drop (length tiles) (Fetch.script w) ∧
  Fetch.sleeps run.2
    = (Fetch.sleeps w
       + if Qle_bool (calculate_bbox_area bbox) 1 then 0 else length tiles)%nat.
Proof.
  cbv zeta. unfold Fetch.query_overpass_with_chunking.
  destruct (Qle_bool (calculate_bbox_area bbox) 1) eqn:Harea.
  - apply Qle_bool_iff in Harea. rewrite (split_small _ _ Harea). simpl.
    rewrite Nat.add_0_r. repeat split.
  - match goal with |- context [Fetch.tile_loop ?mk ?i ?ts ?a ?s ?w'] =>
      destruct (tile_loop_spec mk ts i a s w') as (_ & H2 & H3 & H4);
      destruct (Fetch.tile_loop mk i ts a s w') as [[all succ] w2] end.
    cbv zeta in H2, H3, H4. simpl in H2, H3, H4.
    by case_decide.
Qed.

(** X6: for a region of area above 1.0 the orchestrator always returns an
    object: its elements are the elements of the tiles that answered, in
    tile order, deduplicated; a tile that failed adds nothing and stops
    nothing. *)
Theorem tiled_fetch_result (search_term : string) (bbox : bbox)
    (place_types : option (list string)) (exact_match : bool) (timeout : Z)
    (broad_search : bool) (w : Fetch.net) :
  (1 < calculate_bbox_area bbox)%Q →
  let tiles := split_bbox_into_tiles bbox DEFAULT_MAX_TILES in
  let outcomes := next_outcomes (length tiles) (Fetch.script w) in
  (Fetch.query_overpass_with_chunking search_term bbox place_types exact_match
     timeout broad_search w).1
  = Some {| Fetch.r_elements :=
              Some (Fetch.deduplicate (concat (tile_elements <$> outcomes)));
            Fetch.r_generator := Some "place_detective_chunked" |}.
Proof.
  intros Harea. cbv zeta. by apply tiled_fetch_value.
Qed.

Lemma tiled_fetch_result_witness :
  (Fetch.query_overpass_with_chunking "Lotus" thailand None false 60 false
     (fresh_net [Some {| Fetch.r_elements := Some [lotus; way_with_center];
                         Fetch.r_generator := None |};
                 None;
                 Some {| Fetch.r_elements := Some [way_with_center; lotus];
                         Fetch.r_generator := None |}])).1
  = Some {| Fetch.r_elements := Some [lotus; way_with_center];
            Fetch.r_generator := Some "place_detective_chunked" |}.
Proof.
  rewrite (tiled_fetch_result "Lotus" thailand None false 60 false _ eq_refl).
  vm_compute. reflexivity.
Defined.

(** X7: the keys of the deduplicated list are the distinct keys of the
    input, each once, in the order they are first met: no key is lost and
    none is repeated. *)
Theorem deduplicate_keys (all_elements : list element) :
  Fetch.element_id <$> Fetch.deduplicate all_elements
  = Analyzer.discovery_order (Fetch.element_id <$> all_elements).
Proof.
  rewrite deduplicate_from, dedup_from_keys.
  apply filter_all. intros k _. set_solver.
Qed.

(** X8: what step 1 of main makes of a fetch.  On the single-query path a
    failed request or an empty object leaves no places, an object with the
    key [elements] is normalised as it is, and an object with other keys
    but no [elements] raises KeyError.  On the tiled path the same object
    counts as a failed tile, and the deduplicated elements of the tiles are
    normalised. *)
Theorem investigate_outcomes (search_term : string) (bbox : bbox)
    (place_types : option (list string)) (exact_match : bool) (timeout : Z)
    (w : Fetch.net) :
  let places := (Fetch.investigate search_term bbox place_types exact_match
                   timeout w).1 in
  ((calculate_bbox_area bbox <= 1)%Q →
   places = match default None (head (Fetch.script w)) with
            | None => Ok []
            | Some r =>
                match Fetch.r_elements r, Fetch.r_generator r with
                | Some elements, _ => Normalizer.extract_place_info elements
                | None, Some _ => Raise (KeyError "elements")
                | None, None => Ok []
                end
            end) ∧
  ((1 < calculate_bbox_area bbox)%Q →
   places = Normalizer.extract_place_info
              (Fetch.deduplicate
                 (concat (tile_elements
                            <$> next_outcomes
                                  (length (split_bbox_into_tiles bbox
                                             DEFAULT_MAX_TILES))
                                  (Fetch.script w))))).
Proof.
  cbv zeta. split.
  - intros Harea%Qle_bool_iff. unfold Fetch.investigate,
      Fetch.query_overpass_with_chunking. rewrite Harea. simpl.
    destruct (default None (head (Fetch.script w))) as [[[els|] [gen|]]|]; done.
  - intros Harea. unfold Fetch.investigate.
    pose proof (tiled_fetch_value search_term bbox place_types exact_match
                  timeout false w Harea) as Hr.
    destruct (Fetch.query_overpass_with_chunking _ _ _ _ _ _ _) as [r w2].
    simpl in Hr. by rewrite Hr.
Qed.

Lemma investigate_outcomes_witness :
  (Fetch.investigate "Lotus" bangkok None false 60
     (fresh_net [Some {| Fetch.r_elements := None;
                         Fetch.r_generator := Some "Overpass API" |}])).1
  = Raise (KeyError "elements") ∧
  (Fetch.investigate "Lotus" thailand None false 60
     (fresh_net [Some {| Fetch.r_elements := None;
                         Fetch.r_generator := Some "Overpass API" |}])).1
  = Ok [].
Proof.
  split.
  - rewrite (proj1 (investigate_outcomes "Lotus" bangkok None false 60 _));
      [reflexivity|]. vm_compute. discriminate.
  - rewrite (proj2 (investigate_outcomes "Lotus" thailand None false 60 _));
      [|reflexivity]. vm_compute. reflexivity.
Defined.

(** X24: what the orchestrator prints for a split region: the number of
    tiles, then for each tile in turn either the number of elements found
    or that it failed, then how many tiles succeeded out of how many, and,
    only when duplicates were dropped, how many. *)
Theorem tiled_fetch_report (search_term : string) (bbox : bbox)
    (place_types : option (list string)) (exact_match : bool) (timeout : Z)
    (broad_search : bool) (w : Fetch.net) :
  (1 < calculate_bbox_area bbox)%Q →
  let n := length (split_bbox_into_tiles bbox DEFAULT_MAX_TILES) in
  let outcomes := next_outcomes n (Fetch.script w) in
  let all_elements := concat (tile_elements <$> outcomes) in
  let unique_elements := Fetch.deduplicate all_elements in
  Fetch.console
    (Fetch.query_overpass_with_chunking search_term bbox place_types exact_match
       timeout broad_search w).2
  = Fetch.console w
    ++ [Fetch.SplitInto n]
    ++ tile_messages 1 outcomes
    ++ [Fetch.Completed
          (length (filter (λ o, outcome_failed o = false) outcomes)) n]
    ++ (if decide (length all_elements = length unique_elements) then []
        else [Fetch.RemovedDuplicates
                (length all_elements - length unique_elements)]).
Proof.
  intros Harea%area_large. cbv zeta.
  unfold Fetch.query_overpass_with_chunking. rewrite Harea.
  match goal with |- context [Fetch.tile_loop ?mk ?i ?ts ?a ?s ?w'] =>
    pose proof (tile_loop_spec mk ts i a s w') as (H1 & _);
    pose proof (tile_loop_console mk ts i a s w') as H2;
    destruct (Fetch.tile_loop mk i ts a s w') as [[all succ] w2] end.
  cbv zeta in H1. simpl in H1, H2. injection H1 as -> ->.
  match goal with |- context [decide (?a = ?b)] =>
    destruct (decide (a = b)) as [Heq|Hne] end.
  - rewrite decide_False by (by intros ?). simpl. by rewrite H2, <- !app_assoc.
  - rewrite decide_True by done. simpl. by rewrite H2, <- !app_assoc.
Qed.

Lemma tiled_fetch_report_witness :
  Fetch.console
    (Fetch.query_overpass_with_chunking "Lotus" {| south := 0; west := 0;
                                                   north := 2; east := 2 |}
       None false 60 false
       (fresh_net [Some {| Fetch.r_elements := Some [lotus; way_with_center];
                           Fetch.r_generator := None |};
                   None;
                   Some {| Fetch.r_elements := Some [lotus];
                           Fetch.r_generator := None |}])).2
  = [Fetch.SplitInto 4; Fetch.TileFound 1 2; Fetch.TileFailed 2;
     Fetch.TileFound 3 1; Fetch.TileFailed 4; Fetch.Completed 2 4;
     Fetch.RemovedDuplicates 1].
Proof.
  rewrite (tiled_fetch_report "Lotus"
             {| south := 0; west := 0; north := 2; east := 2 |}
             None false 60 false _ eq_refl).
  vm_compute. reflexivity.
Defined.


(** ** Record normaliser: what a place keeps of its record *)

Module PlaceFacts.
Import Normalizer NormalizerFacts.

Lemma extract_element_named e :
  named e = true →
  (∃ p, extract_element e = Ok (Some p)) ∨ (∃ err, extract_element e = Raise err).
Proof.
  unfold named, extract_element. destruct (e_tags e) as [tags|]; [|done].
  destruct (Dict.get "name" tags) as [name|]; [|done]. intros _.
  destruct (coordinates e) as [[lat lon]|err]; result_simpl.
  - destruct (determine_category tags). left. by eexists.
  - right. by eexists.
Qed.

Lemma extract_element_place_of e p :
  extract_element e = Ok (Some p) → place_of e p.
Proof.
  unfold extract_element, place_of.
  destruct (e_tags e) as [tags|]; [|by result_simpl].
  destruct (Dict.get "name" tags) as [name|] eqn:Hname; [|by result_simpl].
  destruct (coordinates e) as [[lat lon]|err] eqn:Hc; [|by result_simpl].
  destruct (determine_category tags) as [c s]. result_simpl.
  intros [= <-]. simpl. do 4 (split; [done|]).
  intros Hnode Hcenter. unfold coordinates, is_node in *.
  case_decide; [by rewrite bool_decide_eq_true_2 in Hnode|].
  rewrite Hcenter in Hc. result_simpl. by injection Hc as <- <-.
Qed.

(** Lookup in an attribute map whose keys are distinct does not depend on
    the order of its entries. *)
Lemma get_Some_elem {V} key (v : V) (d : Dict.t V) :
  NoDup d.*1 → Dict.get key d = Some v ↔ (key, v) ∈ d.
Proof.
  induction d as [|[k v'] d IH]; simpl; intros Hnd.
  - split; [done|by intros ?%elem_of_nil].
  - apply NoDup_cons in Hnd as [Hk Hnd]. rewrite elem_of_cons.
    case_decide as Hkk.
    + subst k. split; [intros [= ->]; by left|].
      intros [[= ->]|Hin]; [done|]. destruct Hk.
      by apply (list_elem_of_fmap_2 fst) in Hin.
    + rewrite IH by done. split; [by right|]. intros [[= ? ?]|?]; [congruence|done].
Qed.

Lemma get_permutation {V} key (d1 d2 : Dict.t V) :
  NoDup d1.*1 → d1 ≡ₚ d2 → Dict.get key d1 = Dict.get key d2.
Proof.
  intros Hnd Hperm.
  assert (NoDup d2.*1) as Hnd2 by (by rewrite <- Hperm).
  destruct (Dict.get key d1) as [v|] eqn:H1.
  - apply get_Some_elem in H1; [|done]. symmetry. apply get_Some_elem; [done|].
    by rewrite <- Hperm.
  - destruct (Dict.get key d2) as [v|] eqn:H2; [|done].
    apply get_Some_elem in H2; [|done]. rewrite <- Hperm in H2.
    apply get_Some_elem in H2; [|done]. congruence.
Qed.

Lemma category_loop_get items c s k v :
  category_loop items c s = (k, v) →
  (k ∈ CATEGORY_KEYS ∧ Dict.get k items = Some v) ∨
  ((k, v) = (c, s) ∧ ∀ k', k' ∈ CATEGORY_KEYS → Dict.get k' items = None).
Proof.
  induction items as [|[k0 v0] items IH]; simpl.
  - intros [= <- <-]. by right.
  - case_bool_decide as Hk0.
    + intros [= <- <-]. left. by rewrite decide_True.
    + intros [[Hk Hget]|[Heq Hnone]]%IH.
      * left. split; [done|]. rewrite decide_False; [done|]. by intros ->.
      * right. split; [done|]. intros k' Hk'.
        rewrite decide_False; [by apply Hnone|]. by intros ->.
Qed.

Lemma coordinates_with_tags e tags :
  coordinates (with_tags e tags) = coordinates e.
Proof. done. Qed.

(** The places are the named records, one for one. *)
Lemma extract_place_info_Forall2 elements : ∀ places,
  extract_place_info elements = Ok places →
  Forall2 place_of (filter (λ e, named e = true) elements) places.
Proof.
  induction elements as [|e elements IH]; intros places.
  - intros [= <-]. constructor.
  - rewrite NormalizerFacts.extract_place_info_cons, filter_cons.
    destruct (extract_element e) as [r|err] eqn:He; [|done].
    destruct (extract_place_info elements) as [ps|err]; [|done].
    intros [= <-]. specialize (IH ps eq_refl).
    destruct (named e) eqn:Hn.
    + rewrite decide_True by done.
      destruct (extract_element_named e Hn) as [[p Hp]|[err Herr]]; [|congruence].
      rewrite Hp in He. injection He as <-. simpl. constructor; [|done].
      by apply extract_element_place_of.
    + rewrite decide_False by done.
      rewrite (NormalizerFacts.extract_element_unnamed e Hn) in He.
      by injection He as <-.
Qed.

End PlaceFacts.

Import PlaceFacts.

(** X9: normalising a concatenation is normalising its parts: the places
    of the first part followed by those of the second, or the first
    KeyError met. *)
Theorem extract_place_info_app (l1 l2 : list element) :
  Normalizer.extract_place_info (l1 ++ l2)
  = match Normalizer.extract_place_info l1, Normalizer.extract_place_info l2 with
    | Ok places1, Ok places2 => Ok (places1 ++ places2)
    | Raise err, _ => Raise err
    | Ok _, Raise err => Raise err
    end.
Proof.
  induction l1 as [|e l1 IH].
  - simpl. by destruct (Normalizer.extract_place_info l2).
  - rewrite <- app_comm_cons, !NormalizerFacts.extract_place_info_cons, IH.
    destruct (Normalizer.extract_element e) as [p|err]; [|done].
    destruct (Normalizer.extract_place_info l1) as [ps1|err]; [|done].
    destruct (Normalizer.extract_place_info l2) as [ps2|err]; [|done].
    by rewrite app_assoc.
Qed.

(** X10: when the normaliser returns, its places are the records that
    have a name, one place for each and in their order; a place has its
    record's type, id, attribute map and name, and a way or relation without
    [center] gives null coordinates whatever [lat] and [lon] it carries. *)
Theorem places_of_named_elements (elements : list element) (places : list place) :
  Normalizer.extract_place_info elements = Ok places →
  Forall2 place_of (filter (λ e, named e = true) elements) places.
Proof. apply extract_place_info_Forall2. Qed.

Lemma places_of_named_elements_witness :
  Forall2 place_of
    (filter (λ e, named e = true) [lotus; way_with_center])
    [lotus_place;
     {| p_name := "Lumpini Park"; p_type := "way"; p_id := 10;
        p_lat := Some (137 # 10); p_lon := Some (1005 # 10);
        p_category := "leisure"; p_subcategory := "park";
        p_address := None; p_phone := None; p_website := None;
        p_opening_hours := None; p_brand := None; p_cuisine := None;
        p_tags := [("name", "Lumpini Park"); ("leisure", "park")] |}].
Proof. apply (places_of_named_elements [lotus; way_with_center]). reflexivity. Defined.

(** X11: the order of the entries of a record's attribute map (its keys
    being distinct) shows in nothing but the category, the subcategory and
    the map carried along: name, type, id, coordinates, address and contact
    attributes of the place are the same for every order. *)
Theorem place_fields_ignore_tag_order (e : element) (tags1 tags2 : Dict.t string)
    (p1 : place) :
  NoDup tags1.*1 → tags1 ≡ₚ tags2 →
  Normalizer.extract_element (with_tags e tags1) = Ok (Some p1) →
  ∃ p2, Normalizer.extract_element (with_tags e tags2) = Ok (Some p2) ∧
        p_name p2 = p_name p1 ∧ p_type p2 = p_type p1 ∧ p_id p2 = p_id p1 ∧
        p_lat p2 = p_lat p1 ∧ p_lon p2 = p_lon p1 ∧
        p_address p2 = p_address p1 ∧ p_phone p2 = p_phone p1 ∧
        p_website p2 = p_website p1 ∧
        p_opening_hours p2 = p_opening_hours p1 ∧
        p_brand p2 = p_brand p1 ∧ p_cuisine p2 = p_cuisine p1.
Proof.
  intros Hnd Hperm. unfold Normalizer.extract_element.
  rewrite !coordinates_with_tags.
  cbn [e_tags with_tags e_type e_id].
  unfold Normalizer.address_of, Normalizer.append_if_present.
  rewrite !(get_permutation _ tags1 tags2 Hnd Hperm).
  destruct (Dict.get "name" tags2) as [name|]; [|by result_simpl].
  destruct (Normalizer.coordinates e) as [[lat lon]|err]; [|by result_simpl].
  destruct (Normalizer.determine_category tags1) as [c1 s1].
  destruct (Normalizer.determine_category tags2) as [c2 s2].
  result_simpl. intros [= <-]. eexists. split; [reflexivity|]. simpl.
  repeat split.
Qed.

Lemma place_fields_ignore_tag_order_witness :
  ∃ p2,
    Normalizer.extract_element
      (with_tags lotus [("shop", "supermarket"); ("name", "Lotus Mart")])
    = Ok (Some p2) ∧
    p_name p2 = "Lotus Mart" ∧ p_address p2 = None.
Proof.
  destruct (place_fields_ignore_tag_order lotus
              [("name", "Lotus Mart"); ("shop", "supermarket")]
              [("shop", "supermarket"); ("name", "Lotus Mart")]
              lotus_place ltac:(compute_done)
              (perm_swap ("shop", "supermarket") ("name", "Lotus Mart") [])
              eq_refl)
    as (p2 & Hp2 & Hname & _ & _ & _ & _ & Haddr & _).
  exists p2. split; [exact Hp2|]. split; [exact Hname|exact Haddr].
Defined.

(** X12: the category of a place is one of the six category keys or
    "unknown".  In the first case the subcategory is what the record's
    attribute map holds under that key; in the second the map has none of
    the six keys and the subcategory is "unknown" too. *)
Theorem category_is_a_key_of_the_record (e : element) (p : place) :
  Normalizer.extract_element e = Ok (Some p) →
  (p_category p ∈ Normalizer.CATEGORY_KEYS ∧
   Dict.get (p_category p) (p_tags p) = Some (p_subcategory p)) ∨
  (p_category p = "unknown" ∧ p_subcategory p = "unknown" ∧
   ∀ k, k ∈ Normalizer.CATEGORY_KEYS → Dict.get k (p_tags p) = None).
Proof.
  intros He.
  pose proof (extract_element_place_of e p He) as (_ & _ & Htags & _).
  apply NormalizerFacts.extract_element_Some in He
    as (tags & name & lat & lon & Htags' & _ & _ & _ & _ & _ & Hcat).
  assert (tags = p_tags p) as -> by congruence.
  symmetry in Hcat. unfold Normalizer.determine_category in Hcat.
  apply category_loop_get in Hcat as [?|[[= -> ->] Hnone]]; [by left|].
  right. done.
Qed.

Lemma category_is_a_key_of_the_record_witness :
  Dict.get (p_category lotus_place) (p_tags lotus_place)
  = Some (p_subcategory lotus_place).
Proof.
  destruct (category_is_a_key_of_the_record lotus lotus_place eq_refl)
    as [[_ Hget]|[Hunknown _]]; [exact Hget|discriminate Hunknown].
Defined.

(** X13: the address of a place is made of the values of addr:housenumber,
    addr:street, addr:district and addr:city that the record has, in this
    order, joined by ", "; it is null when the record has none of them. *)
Theorem address_assembly (e : element) (p : place) :
  Normalizer.extract_element e = Ok (Some p) →
  p_address p
  = match omap (λ key, Dict.get key (p_tags p)) ADDRESS_KEYS with
    | [] => None
    | parts => Some (join ", " parts)
    end.
Proof.
  unfold Normalizer.extract_element.
  destruct (e_tags e) as [tags|]; [|by result_simpl].
  destruct (Dict.get "name" tags) as [name|]; [|by result_simpl].
  destruct (Normalizer.coordinates e) as [[lat lon]|err]; [|by result_simpl].
  destruct (Normalizer.determine_category tags) as [c s]. result_simpl.
  intros [= <-]. cbn [p_address p_tags].
  unfold Normalizer.address_of, Normalizer.append_if_present, ADDRESS_KEYS.
  cbn [omap list_omap].
  destruct (Dict.get "addr:housenumber" tags), (Dict.get "addr:street" tags),
    (Dict.get "addr:district" tags), (Dict.get "addr:city" tags); reflexivity.
Qed.

Lemma address_assembly_witness :
  ∃ p, Normalizer.extract_element
         (with_tags lotus [("addr:city", "Bangkok"); ("name", "Lotus Mart");
                           ("addr:housenumber", "12")])
       = Ok (Some p) ∧
       p_address p = Some "12, Bangkok".
Proof.
  eexists. split; [reflexivity|].
  match goal with |- p_address ?p = _ =>
    rewrite (address_assembly
               (with_tags lotus [("addr:city", "Bangkok"); ("name", "Lotus Mart");
                                 ("addr:housenumber", "12")]) p eq_refl)
  end.
  reflexivity.
Defined.

(** X25: on the tiled path no two places of step 1 of main have the
    same type and id. *)
Theorem tiled_places_distinct (search_term : string) (bbox : bbox)
    (place_types : option (list string)) (exact_match : bool) (timeout : Z)
    (w : Fetch.net) (places : list place) :
  (1 < calculate_bbox_area bbox)%Q →
  (Fetch.investigate search_term bbox place_types exact_match timeout w).1
    = Ok places →
  NoDup ((λ p, (p_type p, p_id p)) <$> places).
Proof.
  intros Harea. unfold Fetch.investigate.
  pose proof (tiled_fetch_value search_term bbox place_types exact_match
                timeout false w Harea) as Hr.
  destruct (Fetch.query_overpass_with_chunking _ _ _ _ _ _ _) as [r w2].
  simpl in Hr. rewrite Hr. simpl.
  set (unique := Fetch.deduplicate _). intros Hplaces.
  assert (∀ (es : list element) (ps : list place),
            Forall2 place_of es ps →
            (λ p, (p_type p, p_id p)) <$> ps = identity <$> es) as Hids.
  { induction 1 as [|e p es ps (Ht & Hi & _) _ IH]; [done|].
    rewrite !fmap_cons, IH. unfold identity. by rewrite Ht, Hi. }
  rewrite (Hids _ _ (extract_place_info_Forall2 _ _ Hplaces)).
  eapply sublist_NoDup;
    [apply OrchestratorFacts.NoDup_identity_deduplicate
    |apply fmap_sublist, sublist_filter].
Qed.

Lemma tiled_places_distinct_witness :
  NoDup ((λ p, (p_type p, p_id p)) <$> [lotus_place]).
Proof.
  apply (tiled_places_distinct "Lotus" thailand None false 60
           (fresh_net [Some {| Fetch.r_elements := Some [lotus];
                               Fetch.r_generator := None |};
                       Some {| Fetch.r_elements := Some [lotus];
                               Fetch.r_generator := None |}])).
  - reflexivity.
  - vm_compute. reflexivity.
Defined.

(** ** Similarity engine: what can and what must be found *)

Module FindFacts.
Import Similarity SimilarityFacts.


Section Found.
Context {F : Fuzz}.

Lemma elem_of_find_similar_names target candidates threshold name s :
  (name, s) ∈ find_similar_names target candidates threshold ↔
  name ∈ candidates ∧ retained target threshold name ∧ s = score target name.
Proof.
  unfold find_similar_names. rewrite sorted_desc_perm, loop_retained.
  rewrite list_elem_of_fmap. setoid_rewrite list_elem_of_filter. split.
  - intros (n & [= -> ->] & Hkept & Hin). done.
  - intros (Hin & Hkept & ->). by exists name.
Qed.

End Found.


End FindFacts.

Import FindFacts.







(** ** Findings analyser: counts, groups and pairs *)

Module ReportFacts.
Import Analyzer DictFacts AnalyzerFacts.

(** A dictionary with distinct keys is the list of its keys with their
    values. *)
Lemma dict_of_get {V} (f : string → V) (d : Dict.t V) :
  NoDup (Dict.keys d) →
  (∀ k, k ∈ Dict.keys d → Dict.get k d = Some (f k)) →
  d = (λ k, (k, f k)) <$> Dict.keys d.
Proof.
  unfold Dict.keys. induction d as [|[k v] d IH]; intros Hnd Hget; [done|].
  rewrite !fmap_cons in *. cbn [fst] in *.
  apply NoDup_cons in Hnd as [Hk Hnd].
  pose proof (Hget k (list_elem_of_here _ _)) as Hv. simpl in Hv.
  rewrite decide_True in Hv by done. injection Hv as ->. f_equal.
  apply IH; [done|]. intros k' Hk'.
  specialize (Hget k' (list_elem_of_further _ _ _ Hk')). simpl in Hget.
  rewrite decide_False in Hget; [done|]. by intros ->.
Qed.

Lemma set_absent {V} key (v : V) (d : Dict.t V) :
  key ∉ Dict.keys d → Dict.set key v d = d ++ [(key, v)].
Proof.
  unfold Dict.keys. induction d as [|[k v'] d IH]; [done|].
  rewrite fmap_cons, not_elem_of_cons. cbn [fst]. intros [Hne Hd].
  cbn [Dict.set]. rewrite decide_False by done. by rewrite IH.
Qed.

Lemma groups_dict places g :
  groups_of places g →
  g = (λ n, (n, group_of places n)) <$> discovery_order (p_name <$> places).
Proof.
  intros [Hkeys Hget]. rewrite <- Hkeys. apply dict_of_get; [|done].
  rewrite Hkeys. apply NoDup_discovery_order.
Qed.

(** The loop over the groups keeps those of more than one place. *)
Lemma multiple_loop_spec (G : string → list place) (names : list string) :
  NoDup names →
  multiple_loop ((λ n, (n, G n)) <$> names)
  = (λ n, (n, G n)) <$> filter (λ n, (1 < length (G n))%nat) names.
Proof.
  unfold multiple_loop, Dict.items.
  assert (∀ found : Dict.t (list place),
            NoDup names → (∀ n, n ∈ names → n ∉ Dict.keys found) →
            foldl (λ found '(name, group),
                     if (1 <? length group)%nat then Dict.set name group found
                     else found) found ((λ n, (n, G n)) <$> names)
            = found ++ ((λ n, (n, G n))
                          <$> filter (λ n, (1 < length (G n))%nat) names)) as H.
  { induction names as [|n names IH]; intros found Hnd Hfresh.
    - by rewrite app_nil_r.
    - apply NoDup_cons in Hnd as [Hn Hnd]. rewrite fmap_cons. cbn [foldl].
      rewrite filter_cons. destruct (1 <? length (G n))%nat eqn:E.
      + apply Nat.ltb_lt in E. rewrite decide_True by done.
        rewrite set_absent by (apply Hfresh; by left).
        rewrite IH; [by rewrite <- app_assoc|done|].
        intros m Hm. unfold Dict.keys. rewrite fmap_app, not_elem_of_app.
        split; [apply Hfresh; by right|]. cbn.
        rewrite list_elem_of_singleton. by intros ->.
      + apply Nat.ltb_ge in E. rewrite decide_False by lia.
        apply IH; [done|]. intros m Hm. apply Hfresh. by right. }
  intros Hnd. rewrite H; [done|done|]. intros n _. by intros ?%elem_of_nil.
Qed.

(** The report in closed form. *)
Lemma analyze_findings_value `{F : Fuzz} (places : list place) :
  let names := discovery_order (p_name <$> places) in
  analyze_findings places
  = Ok {| total_places := length places;
          unique_names := size (list_to_set (p_name <$> places) : gset string);
          multiple_locations :=
            (λ n, (n, group_of places n))
              <$> filter (λ n, (1 < length (group_of places n))%nat) names;
          name_variations := name_variations_spec places |}.
Proof.
  cbv zeta.
  destruct (group_loop_spec places [] [] groups_of_nil) as (g & Hloop & Hg).
  simpl in Hg. unfold analyze_findings. rewrite Hloop.
  pose proof (outer_loop_spec places g Hg (Dict.keys g) []) as Houter.
  simpl in Houter. specialize (Houter eq_refl).
  cbn [mbind result_bind]. rewrite Houter. cbn [mbind result_bind mret result_ret].
  do 2 f_equal.
  - rewrite (groups_dict _ _ Hg) at 1.
    apply multiple_loop_spec, NoDup_discovery_order.
  - unfold name_variations_spec. by destruct Hg as [-> _].
Qed.

(** *** Counting *)

Lemma unique_names_length (names : list string) :
  size (list_to_set names : gset string) = length (discovery_order names).
Proof.
  rewrite <- (size_list_to_set (C := gset string) (discovery_order names))
    by apply NoDup_discovery_order.
  f_equal. apply set_eq. intros n.
  by rewrite !elem_of_list_to_set, elem_of_discovery_order.
Qed.

Lemma sum_indicator (a : string) (ks : list string) :
  NoDup ks → a ∈ ks →
  sum_list ((λ k, if decide (a = k) then 1 else 0)%nat <$> ks) = 1%nat.
Proof.
  induction ks as [|k ks IH]; intros Hnd Ha; [by apply elem_of_nil in Ha|].
  apply NoDup_cons in Hnd as [Hk Hnd]. rewrite fmap_cons. simpl.
  case_decide as Hak.
  - subst k. f_equal.
    clear IH Ha Hnd. induction ks as [|k ks IH]; [done|].
    apply not_elem_of_cons in Hk as [Hne Hk]. rewrite fmap_cons. simpl.
    rewrite decide_False by done. by apply IH.
  - apply elem_of_cons in Ha as [?|Ha]; [done|]. simpl. by apply IH.
Qed.

Lemma sum_list_plus {A} (f h : A → nat) (ks : list A) :
  sum_list ((λ k, f k + h k)%nat <$> ks)
  = (sum_list (f <$> ks) + sum_list (h <$> ks))%nat.
Proof.
  induction ks as [|k ks IH]; [done|].
  rewrite !fmap_cons. simpl. rewrite IH. lia.
Qed.

Lemma length_group_of_cons p places k :
  length (group_of (p :: places) k)
  = ((if decide (p_name p = k) then 1 else 0) + length (group_of places k))%nat.
Proof. unfold group_of. rewrite filter_cons. by case_decide. Qed.

(** The groups of the distinct names share out the places. *)
Lemma groups_partition (places : list place) (ks : list string) :
  NoDup ks → (∀ p, p ∈ places → p_name p ∈ ks) →
  sum_list ((λ k, length (group_of places k)) <$> ks) = length places.
Proof.
  intros Hnd. induction places as [|p places IH]; intros Hin.
  - clear. induction ks as [|k ks IH]; [done|]. by rewrite fmap_cons.
  - rewrite (list_fmap_ext _ (λ k, (if decide (p_name p = k) then 1 else 0)
                                   + length (group_of places k))%nat ks)
      by (intros; apply length_group_of_cons).
    rewrite sum_list_plus, sum_indicator, IH; [done| |done|].
    + intros q Hq. apply Hin. by right.
    + apply Hin. by left.
Qed.

Lemma group_of_nonempty places n :
  n ∈ p_name <$> places → (1 ≤ length (group_of places n))%nat.
Proof.
  intros (p & -> & Hp)%list_elem_of_fmap.
  assert (p ∈ group_of places (p_name p)) as Hin
    by (by apply list_elem_of_filter).
  destruct (group_of places (p_name p)); [by apply elem_of_nil in Hin|simpl; lia].
Qed.

Lemma sum_all_ones (f : string → nat) (ks : list string) :
  (∀ k, k ∈ ks → (1 ≤ f k)%nat) →
  sum_list (f <$> ks) = length ks ↔ filter (λ k, (1 < f k)%nat) ks = [].
Proof.
  induction ks as [|k ks IH]; intros Hf; [done|].
  rewrite fmap_cons, filter_cons. simpl.
  pose proof (Hf k (list_elem_of_here _ _)) as Hk.
  assert (length ks ≤ sum_list (f <$> ks))%nat as Hlow.
  { clear IH Hk. induction ks as [|k' ks IH]; [done|].
    rewrite fmap_cons. simpl.
    pose proof (Hf k' ltac:(right; by left)).
    assert (length ks ≤ sum_list (f <$> ks))%nat;
      [apply IH; intros k'' ?%elem_of_cons; apply Hf; set_solver|lia]. }
  specialize (IH (λ k' Hk', Hf k' (list_elem_of_further _ _ _ Hk'))).
  case_decide as Hbig.
  - split; [lia|done].
  - rewrite <- IH. lia.
Qed.


Lemma length_le_sum (f : string → nat) (ks : list string) :
  (∀ k, k ∈ ks → (1 ≤ f k)%nat) → (length ks ≤ sum_list (f <$> ks))%nat.
Proof.
  induction ks as [|k ks IH]; intros Hf; [done|].
  rewrite fmap_cons. simpl.
  pose proof (Hf k (list_elem_of_here _ _)).
  specialize (IH (λ k' Hk', Hf k' (list_elem_of_further _ _ _ Hk'))). lia.
Qed.

Lemma get_fmap_keys {V} (f : string → V) (ks : list string) n :
  Dict.get n ((λ k, (k, f k)) <$> ks)
  = if decide (n ∈ ks) then Some (f n) else None.
Proof.
  induction ks as [|k ks IH]; [done|].
  rewrite fmap_cons. cbn [Dict.get]. destruct (decide (k = n)) as [Hk|Hk].
  - subst k. rewrite decide_True; [done|]. by left.
  - rewrite IH. destruct (decide (n ∈ ks)).
    + rewrite decide_True; [done|]. by right.
    + rewrite decide_False; [done|]. by intros [?|?]%elem_of_cons.
Qed.

Lemma length_pairs_in_order (names : list string) :
  (2 * length (pairs_in_order names) = length names * (length names - 1))%nat.
Proof.
  induction names as [|n names IH]; [done|].
  cbn [pairs_in_order length]. rewrite length_app, length_fmap. nia.
Qed.

Lemma length_omap_le {A B} (f : A → option B) (l : list A) :
  (length (omap f l) ≤ length l)%nat.
Proof.
  induction l as [|x l IH]; [done|]. cbn [omap list_omap].
  destruct (f x); simpl; lia.
Qed.

End ReportFacts.

Import ReportFacts.

(** X17: the report counts every place and every distinct name; there are
    never more names than places; and no name is reported at several
    locations exactly when the two counts are equal. *)
Theorem report_counts (F : Fuzz) (places : list place) :
  ∃ a, Analyzer.analyze_findings places = Ok a ∧
       Analyzer.total_places a = length places ∧
       Analyzer.unique_names a
         = length (Analyzer.discovery_order (p_name <$> places)) ∧
       (Analyzer.unique_names a ≤ Analyzer.total_places a)%nat ∧
       (Analyzer.multiple_locations a = [] ↔
        Analyzer.unique_names a = Analyzer.total_places a).
Proof.
  eexists. split; [apply analyze_findings_value|]. cbv zeta. simpl.
  set (names := Analyzer.discovery_order (p_name <$> places)).
  assert (NoDup names) as Hnd by apply AnalyzerFacts.NoDup_discovery_order.
  assert (∀ k, k ∈ names → (1 ≤ length (Analyzer.group_of places k))%nat) as Hone.
  { intros k Hk. apply group_of_nonempty.
    by apply AnalyzerFacts.elem_of_discovery_order. }
  assert (sum_list ((λ k, length (Analyzer.group_of places k)) <$> names)
          = length places) as Hsum.
  { apply groups_partition; [done|]. intros p Hp.
    apply AnalyzerFacts.elem_of_discovery_order. by apply list_elem_of_fmap_2. }
  rewrite unique_names_length. fold names.
  split; [done|]. split; [done|]. split.
  - rewrite <- Hsum. by apply length_le_sum.
  - pose proof (sum_all_ones _ names Hone) as Hiff. rewrite Hsum in Hiff.
    split.
    + intros Hnil%fmap_nil_inv. symmetry. by apply Hiff.
    + intros Heq. symmetry in Heq. apply Hiff in Heq. by rewrite Heq.
Qed.

(** X18: a name is reported at several locations exactly when more than
    one place bears it, and then with all the places that bear it; the
    names are reported in the order they are first met. *)
Theorem multiple_locations_groups (F : Fuzz) (places : list place) :
  ∃ a, Analyzer.analyze_findings places = Ok a ∧
       Dict.keys (Analyzer.multiple_locations a)
         = filter (λ n, (1 < length (Analyzer.group_of places n))%nat)
             (Analyzer.discovery_order (p_name <$> places)) ∧
       ∀ n, Dict.get n (Analyzer.multiple_locations a)
            = if decide (1 < length (Analyzer.group_of places n))%nat
              then Some (Analyzer.group_of places n) else None.
Proof.
  eexists. split; [apply analyze_findings_value|]. cbv zeta. simpl. split.
  - unfold Dict.keys. rewrite <- list_fmap_compose. apply list_fmap_id.
  - intros n. rewrite get_fmap_keys.
    destruct (decide (1 < length (Analyzer.group_of places n))%nat) as [Hn|Hn].
    + rewrite decide_True; [done|]. apply list_elem_of_filter. split; [done|].
      apply AnalyzerFacts.elem_of_discovery_order.
      destruct (decide (n ∈ p_name <$> places)) as [|Hout]; [done|].
      rewrite (AnalyzerFacts.group_of_absent _ _ Hout) in Hn. simpl in Hn. lia.
    + rewrite decide_False; [done|]. by intros [? _]%list_elem_of_filter.
Qed.

(** X19: every reported name variation pairs two different names, the
    first met before the second, scores above 80 by the plain ratio of the
    lowercased names, and carries for each name all the places that bear
    it, at least one; with [k] distinct names there are at most
    [k (k - 1) / 2] variations. *)
Theorem name_variation_facts (F : Fuzz) (places : list place) :
  ∃ a, Analyzer.analyze_findings places = Ok a ∧
       (∀ v, v ∈ Analyzer.name_variations a →
          Analyzer.name1 v ≠ Analyzer.name2 v ∧
          80 < Analyzer.similarity v ∧
          Analyzer.similarity v
            = ratio (lower (Analyzer.name1 v)) (lower (Analyzer.name2 v)) ∧
          Analyzer.places1 v = Analyzer.group_of places (Analyzer.name1 v) ∧
          Analyzer.places2 v = Analyzer.group_of places (Analyzer.name2 v) ∧
          Analyzer.places1 v ≠ [] ∧ Analyzer.places2 v ≠ []) ∧
       (2 * length (Analyzer.name_variations a)
        ≤ Analyzer.unique_names a * (Analyzer.unique_names a - 1))%nat.
Proof.
  eexists. split; [apply analyze_findings_value|]. cbv zeta. simpl.
  set (names := Analyzer.discovery_order (p_name <$> places)).
  assert (NoDup names) as Hnd by apply AnalyzerFacts.NoDup_discovery_order.
  split.
  - intros v. unfold Analyzer.name_variations_spec. fold names.
    rewrite list_elem_of_omap. intros ([n1 n2] & Hpair & Hv).
    apply AnalyzerFacts.elem_of_pairs_in_order in Hpair
      as (i & j & Hij & Hi & Hj).
    unfold Analyzer.variation_of in Hv. cbn [fst snd] in Hv.
    destruct (80 <? _) eqn:E; [|done]. apply Z.ltb_lt in E.
    injection Hv as <-. simpl.
    assert (∀ n k, names !! k = Some n → Analyzer.group_of places n ≠ []) as Hne.
    { intros n k Hk%list_elem_of_lookup_2 Hnil.
      apply AnalyzerFacts.elem_of_discovery_order, group_of_nonempty in Hk.
      rewrite Hnil in Hk. simpl in Hk. lia. }
    repeat split; eauto.
    intros ->. rewrite NoDup_alt in Hnd. specialize (Hnd i j n2 Hi Hj). lia.
  - rewrite unique_names_length. fold names.
    unfold Analyzer.name_variations_spec. fold names.
    pose proof (length_omap_le (Analyzer.variation_of places)
                  (Analyzer.pairs_in_order names)).
    pose proof (length_pairs_in_order names). lia.
Qed.

(** ** Query planner and main *)

Module PlannerFacts.
Import Planner.

Lemma split_eq_None s : split_eq s = None ↔ contains_eq s = false.
Proof.
  induction s as [|c s IH]; simpl; [done|].
  destruct (Ascii.eqb c "="); simpl; [done|].
  rewrite <- IH. by destruct (split_eq s) as [[k v]|].
Qed.

Lemma split_eq_first key value :
  contains_eq key = false →
  split_eq (key +:+ "=" +:+ value) = Some (key, value).
Proof.
  induction key as [|c key IH]; simpl; [done|].
  intros [Hc Hkey]%orb_false_iff. rewrite Hc. by rewrite (IH Hkey).
Qed.

Lemma length_extend3 pattern filter bbox :
  length (extend3 pattern filter bbox) = 3%nat.
Proof. done. Qed.

End PlannerFacts.

Module MainFacts.
Import Main.

(** Each match whose name is the name of a place is listed with the first
    place of that name. *)
Lemma fuzzy_places_spec similar_names all_places :
  (∀ name score, (name, score) ∈ similar_names → name ∈ p_name <$> all_places) →
  Forall2 (λ '(name, score) '(p, s),
             s = score ∧ p_name p = name ∧
             head (filter (λ q, p_name q = name) all_places) = Some p)
          (take 10 similar_names) (fuzzy_places similar_names all_places).
Proof.
  intros Hin.
  assert (∀ l : list (string * Z),
            (∀ name score, (name, score) ∈ l → name ∈ p_name <$> all_places) →
            Forall2 (λ '(name, score) '(p, s),
                       s = score ∧ p_name p = name ∧
                       head (filter (λ q, p_name q = name) all_places) = Some p)
                    l ('(name, score) ← l;
                       match filter (λ p, p_name p = name) all_places with
                       | p :: _ => [(p, score)]
                       | [] => []
                       end)) as H.
  { induction l as [|[name score] l IH]; intros Hl; [constructor|].
    rewrite bind_cons.
    pose proof (Hl name score (list_elem_of_here _ _)) as Hn.
    apply list_elem_of_fmap in Hn as (p & Hname & Hp).
    assert (p ∈ filter (λ q, p_name q = name) all_places) as Hf
      by (by apply list_elem_of_filter).
    destruct (filter (λ q, p_name q = name) all_places) as [|q qs] eqn:E;
      [by apply elem_of_nil in Hf|].
    simpl. constructor.
    - split; [done|]. split; [|by rewrite E].
      assert (q ∈ filter (λ q, p_name q = name) all_places) as Hq
        by (rewrite E; by left).
      by apply list_elem_of_filter in Hq as [? _].
    - apply IH. intros n s Hns. apply (Hl n s). by right. }
  apply H. intros name score Hns. apply (Hin name score).
  by apply (subseteq_take 10 similar_names).
Qed.

End MainFacts.

Import PlannerFacts MainFacts.

(** X20: the fuzzy expansion lists the ten best similar names at most,
    all of them when there are fewer, each with its score and with the
    first place of the broad search that bears the name: of several places
    with one name, only the first is ever listed. *)
Theorem fuzzy_expansion_lists_first_places (F : Fuzz) (search_term : string)
    (fuzzy_threshold : Z) (all_places : list place) :
  let similar_names :=
    Similarity.find_similar_names search_term (p_name <$> all_places)
      fuzzy_threshold in
  let listed := Main.fuzzy_expansion search_term fuzzy_threshold all_places in
  Forall2 (λ '(name, score) '(p, s),
             s = score ∧ p_name p = name ∧
             head (filter (λ q, p_name q = name) all_places) = Some p)
          (take 10 similar_names) listed ∧
  length listed = Nat.min 10 (length similar_names).
Proof.
  cbv zeta. unfold Main.fuzzy_expansion.
  pose proof (fuzzy_places_spec
                (Similarity.find_similar_names search_term
                   (p_name <$> all_places) fuzzy_threshold) all_places) as H.
  assert (∀ name score,
            (name, score)
            ∈ Similarity.find_similar_names search_term (p_name <$> all_places)
                fuzzy_threshold →
            name ∈ p_name <$> all_places) as Hnames.
  { intros name score Hin.
    by apply FindFacts.elem_of_find_similar_names in Hin as [? _]. }
  specialize (H Hnames). split; [exact H|].
  apply Forall2_length in H. rewrite <- H. apply length_take.
Qed.

(** X21: whichever area scope is asked for, every city that the command
    line accepts has a region: selecting it never raises KeyError; the
    region has south < north and west < east; and the province region of a
    city contains its city region. *)
Theorem region_tables_agree (area_scope city : string) :
  city ∈ Dict.keys Main.CITY_BBOXES →
  ∃ b c p,
    Main.select_bbox area_scope city = Ok b ∧
    (south b < north b)%Q ∧ (west b < east b)%Q ∧
    Main.select_bbox "city" city = Ok c ∧
    Main.select_bbox "province" city = Ok p ∧
    (b = c ∨ b = p) ∧
    (south p <= south c ∧ north c <= north p ∧
     west p <= west c ∧ east c <= east p)%Q.
Proof.
  intros Hin. unfold Main.select_bbox.
  rewrite (decide_False (P := "city" = "province")) by done.
  rewrite (decide_True (P := "province" = "province")) by done.
  cbn in Hin.
  repeat (apply elem_of_cons in Hin as [->|Hin]); [..|by apply elem_of_nil in Hin].
  all: case_decide; do 3 eexists; (split; [reflexivity|]).
  all: repeat split; try reflexivity; try discriminate; auto.
Qed.

Lemma region_tables_agree_witness :
  ∃ b, Main.select_bbox "province" "korat" = Ok b ∧ (south b < north b)%Q.
Proof.
  destruct (region_tables_agree "province" "korat") as (b & c & p & Hb & Hlat & _).
  - compute_done.
  - exists b. split; [exact Hb|exact Hlat].
Defined.

(** X22: with filters given, the query has three clauses for each filter,
    in the order of the filters: the node, way and relation clause with the
    name pattern, the filter's translation and the bounding box. *)
Theorem planner_clauses (pattern bbox : string) (place_types : list string)
    (i : nat) (place_type : string) :
  place_types !! i = Some place_type →
  let queries := Planner.queries_of pattern bbox (Some place_types) in
  let clause kind :=
    kind +:+ "[" +:+ pattern +:+ "]" +:+ Planner.type_filter place_type
         +:+ "(" +:+ bbox +:+ ");" in
  length queries = (3 * length place_types)%nat ∧
  queries !! (3 * i)%nat = Some (clause "node") ∧
  queries !! (3 * i + 1)%nat = Some (clause "way") ∧
  queries !! (3 * i + 2)%nat = Some (clause "relation").
Proof.
  intros Hi. cbv zeta. unfold Planner.queries_of.
  destruct place_types as [|first rest]; [done|].
  set (f := λ place_type,
              Planner.extend3 pattern (Planner.type_filter place_type) bbox).
  split; [rewrite (GeometryFacts.length_bind_blocks f 3) by done; lia|].
  replace (3 * i)%nat with (i * 3 + 0)%nat by lia.
  replace (i * 3 + 0 + 1)%nat with (i * 3 + 1)%nat by lia.
  replace (i * 3 + 0 + 2)%nat with (i * 3 + 2)%nat by lia.
  rewrite !(GeometryFacts.lookup_bind_blocks f 3 _ ltac:(done) i _ place_type Hi)
    by lia.
  done.
Qed.

Lemma planner_clauses_witness :
  Planner.queries_of "P" "1,2,3,4" (Some ["shop"; "amenity=cafe"]) !! 4%nat
  = Some ("way[P]" +:+ Planner.type_filter "amenity=cafe" +:+ "(1,2,3,4);").
Proof.
  apply (planner_clauses "P" "1,2,3,4" ["shop"; "amenity=cafe"] 1 "amenity=cafe").
  reflexivity.
Defined.

(** X23: a filter is cut at its first '=': when the key has no '=', the
    filter key=value is translated to the test that the key has this
    value, even when the value has an '=' itself; a filter without any '='
    is translated to the test that the key is there. *)
Theorem type_filter_cuts_at_first_eq (key value : string) :
  Planner.contains_eq key = false →
  Planner.type_filter (key +:+ "=" +:+ value)
  = "[" +:+ Planner.dq +:+ key +:+ Planner.dq +:+ "="
        +:+ Planner.dq +:+ value +:+ Planner.dq +:+ "]" ∧
  Planner.type_filter key
  = "[" +:+ Planner.dq +:+ key +:+ Planner.dq +:+ "]".
Proof.
  intros Hkey. unfold Planner.type_filter.
  rewrite (split_eq_first key value Hkey).
  apply split_eq_None in Hkey. by rewrite Hkey.
Qed.

Lemma type_filter_cuts_at_first_eq_witness :
  Planner.type_filter "opening_hours=Mo-Fr 08:00-17:00; PH=off"
  = "[" +:+ Planner.dq +:+ "opening_hours" +:+ Planner.dq +:+ "="
        +:+ Planner.dq +:+ "Mo-Fr 08:00-17:00; PH=off" +:+ Planner.dq +:+ "]".
Proof.
  apply (type_filter_cuts_at_first_eq "opening_hours" "Mo-Fr 08:00-17:00; PH=off").
  reflexivity.
Defined.
